(** * Input rules (src/inputrules.ts): a shallow embedding and its properties

    The file embeds the one source module of the repository:
    [InputRule] and its [stringHandler], the plugin built by
    [inputRules] (its state field [init]/[apply] and its two props),
    the matcher [run] and the command [undoInputRule].

    Everything the module imports from the editor libraries (documents,
    resolved positions, transactions, steps, editor state and view) is an
    interface here, the class [Host]; what the libraries promise about these
    operations is the class [HostLaws], used only where a statement is about
    the length of the text of a range or about the document a transaction
    produces.  The two library calls that raise on arguments the module can
    give them, [insertText] and [schema.text], end in a [Completion], and
    so do the handlers and the functions of the module that call them.
    Numbers are document positions and string indices, integers far below
    2^53, so they are in [Z]. *)

From Stdlib Require Import List ZArith NArith Lia Bool Ascii String.
Import ListNotations.
Local Open Scope Z_scope.

Set Implicit Arguments.

(* ================================================================== *)
(** * JavaScript values used by the module *)
(* ================================================================== *)

Module JS.

(** A JavaScript string is a sequence of UTF-16 code units; lengths and
    indices count code units. *)
Definition char := N.
Definition jsstring := list char.

Definition len (s : jsstring) : Z := Z.of_nat (List.length s).

(** ASCII literals, for examples. *)
Definition str (s : string) : jsstring :=
  List.map N_of_ascii (list_ascii_of_string s).

Fixpoint eqb (a b : jsstring) : bool :=
  match a, b with
  | [], [] => true
  | x :: a', y :: b' => N.eqb x y && eqb a' b'
  | _, _ => false
  end.

(** [startsWith s p]: [p] is a prefix of [s]. *)
Fixpoint startsWith (s p : jsstring) {struct p} : bool :=
  match p, s with
  | [], _ => true
  | _ :: _, [] => false
  | y :: p', x :: s' => N.eqb x y && startsWith s' p'
  end.

(** Relative index of [String.prototype.slice]: a negative index counts
    from the end, and everything is clamped to [0, length]. *)
Definition relIndex (n i : Z) : Z :=
  if i <? 0 then Z.max (n + i) 0 else Z.min i n.

(** [s.slice(a, b)]. *)
Definition slice (s : jsstring) (a b : Z) : jsstring :=
  let from := relIndex (len s) a in
  let to := relIndex (len s) b in
  firstn (Z.to_nat (Z.max (to - from) 0)) (skipn (Z.to_nat from) s).

(** [s.slice(a)]. *)
Definition sliceFrom (s : jsstring) (a : Z) : jsstring :=
  slice s a (len s).

(** The search of [lastIndexOf], from index [k] downwards. *)
Fixpoint lastIndexOf_down (s p : jsstring) (k : nat) : Z :=
  if startsWith (skipn k s) p then Z.of_nat k
  else match k with
       | O => -1
       | S k' => lastIndexOf_down s p k'
       end.

(** [s.lastIndexOf(p)]: the largest index at which [p] occurs in [s],
    or -1. *)
Definition lastIndexOf (s p : jsstring) : Z :=
  if (List.length p <=? List.length s)%nat
  then lastIndexOf_down s p (List.length s - List.length p)
  else -1.

(** The array [RegExp.prototype.exec] returns: element 0 is the matched
    text, element [i+1] is capture group [i+1], [undefined] ([None]) when
    the group took no part in the match. *)
Record RegExpMatch := {
  matched : jsstring;               (* match[0] *)
  groups : list (option jsstring)   (* match[1], match[2], ... *)
}.

(** [match[i]] for [i >= 1]; [undefined] beyond the end of the array. *)
Definition group (m : RegExpMatch) (i : nat) : option jsstring :=
  match i with
  | O => Some (matched m)
  | S j => match nth_error (groups m) j with
           | Some g => g
           | None => None
           end
  end.

(** Truthiness of a value that is a string or [undefined]. *)
Definition truthy (v : option jsstring) : bool :=
  match v with
  | Some (_ :: _) => true
  | _ => false
  end.

(** A regular expression, as the function [exec] computes on a subject
    (a pattern without the [g] and [y] flags: [exec] keeps no position
    between calls). *)
Definition RegExp := jsstring -> option RegExpMatch.

End JS.
Import JS.

(* ================================================================== *)
(** * How a call ends *)
(* ================================================================== *)

(** A call returns a value or raises an error.  The calls that can raise
    on what the module gives them are [insertText], on a range whose start
    is beyond its end, and [schema.text], on the empty string; a handler,
    being any function, can raise too.  An error is not caught anywhere in
    the module: it ends [run] and [undoInputRule]. *)
Inductive Completion (A : Type) : Type :=
| Normal (a : A)
| Throw.

Arguments Throw {A}.

Definition cmap {A B : Type} (f : A -> B) (c : Completion A)
    : Completion B :=
  match c with
  | Normal a => Normal (f a)
  | Throw => Throw
  end.

(* ================================================================== *)
(** * The editor libraries, as an interface *)
(* ================================================================== *)

(** A resolved position: the fields and the method the module reads. *)
Record ResolvedPos (N M : Type) := {
  parent : N;
  parentOffset : Z;
  marks : list M
}.

(** The object [run] attaches to the transaction it dispatches, and the
    plugin state: [{transform, from, to, text}]. *)
Record Undoable (T : Type) := {
  transform : T;
  from : Z;
  to : Z;
  text : jsstring
}.

Class Host := {
  Node : Type;
  Mark : Type;
  Step : Type;
  Transaction : Type;
  EditorState : Type;
  EditorView : Type;
  Plugin : Type;
  (* prosemirror-model *)
  resolve : Node -> Z -> ResolvedPos Node Mark;
  spec_code : Node -> bool;                     (* node.type.spec.code *)
  textBetween : Node -> Z -> Z -> option jsstring -> jsstring -> jsstring;
  schema_text : jsstring -> list Mark -> Completion Node;
                                                (* state.schema.text *)
  (* prosemirror-transform *)
  step_apply : Step -> Node -> option Node;     (* the document of Step.apply *)
  step_invert : Step -> option Node -> Step;    (* Step.invert, of docs[j] *)
  tr_steps : Transaction -> list Step;
  tr_docs : Transaction -> list Node;
  tr_doc : Transaction -> Node;
  tr_step : Transaction -> Step -> Transaction;
  insertText : Transaction -> jsstring -> Z -> Z -> Completion Transaction;
  replaceWith : Transaction -> Z -> Z -> Node -> Transaction;
  (* prosemirror-state *)
  setMeta : Transaction -> Plugin -> Undoable Transaction -> Transaction;
  getMeta : Transaction -> Plugin -> option (Undoable Transaction);
  selectionSet : Transaction -> bool;
  docChanged : Transaction -> bool;
  state_doc : EditorState -> Node;
  state_tr : EditorState -> Transaction;
  state_plugins : EditorState -> list Plugin;
  cursor : EditorState -> option Z;             (* selection.$cursor.pos *)
  isInputRules : Plugin -> bool;                (* plugin.spec.isInputRules *)
  getState : Plugin -> EditorState -> option (Undoable Transaction);
  (* prosemirror-view *)
  composing : EditorView -> bool;
  view_state : EditorView -> EditorState;
  view_dispatch : EditorView -> Transaction -> EditorView
}.

(** What the libraries promise, as far as the statements below use it. *)
Class HostLaws (H : Host) : Prop := {
  (* a position of a text block is one character of textBetween, a leaf
     node included when the leaf text is one character *)
  textBetween_length : forall n a b c,
    (List.length (textBetween n a b None [c]) <= Z.to_nat (b - a))%nat;
  (* state.tr starts at the state's document *)
  state_tr_doc : forall st, tr_doc (state_tr st) = state_doc st;
  (* Transform.step moves the transform's document by the step *)
  tr_step_doc : forall tr s d,
    step_apply s (tr_doc tr) = Some d -> tr_doc (tr_step tr s) = d;
  (* Step.invert, given the document the step was applied to, undoes it *)
  step_invert_apply : forall s d d',
    step_apply s d = Some d' -> step_apply (step_invert s (Some d)) d' = Some d;
  (* the document replaceWith produces depends on the current document *)
  replaceWith_doc : forall tr tr' a b n,
    tr_doc tr = tr_doc tr' ->
    tr_doc (replaceWith tr a b n) = tr_doc (replaceWith tr' a b n)
}.

(** [schema.text] builds a text node of every string but the empty one,
    on which it raises. *)
Class SchemaLaws (H : Host) : Prop := {
  schema_text_empty : forall ms, schema_text [] ms = Throw;
  schema_text_node : forall s ms,
    s <> [] -> exists n, schema_text s ms = Normal n
}.

(* ================================================================== *)
(** * The module *)
(* ================================================================== *)

Section InputRules.

Context {H : Host}.

Definition InputRuleHandler : Type :=
  EditorState -> RegExpMatch -> Z -> Z -> Completion (option Transaction).

Record InputRule := {
  rule_match : RegExp;
  rule_handler : InputRuleHandler
}.

(** The arguments [stringHandler] passes to [insertText]: the text to
    insert and the range it replaces. *)
Definition stringHandler_edit (string : jsstring) (m : RegExpMatch)
    (start end_ : Z) : jsstring * Z * Z :=
  let insert := string in
  match group m 1 with
  | Some ((_ :: _) as g) =>                    (* if (match[1]) *)
      let offset := lastIndexOf (matched m) g in
      let insert := insert ++ sliceFrom (matched m) (offset + len g) in
      let start := start + offset in
      let cutOff := start - end_ in
      if 0 <? cutOff then
        (slice (matched m) (offset - cutOff) offset ++ insert, end_, end_)
      else (insert, start, end_)
  | _ => (insert, start, end_)
  end.

Definition stringHandler (string : jsstring) : InputRuleHandler :=
  fun state m start end_ =>
    let '(insert, start', end') := stringHandler_edit string m start end_ in
    cmap Some (insertText (state_tr state) insert start' end').

(** The constructor of [InputRule]: a string handler is wrapped. *)
Inductive HandlerArg :=
| HString (s : jsstring)
| HFunction (f : InputRuleHandler).

Definition newInputRule (m : RegExp) (handler : HandlerArg) : InputRule :=
  {| rule_match := m;
     rule_handler := match handler with
                     | HString s => stringHandler s
                     | HFunction f => f
                     end |}.

Definition MAX_MATCH : Z := 500.

(** ** The plugin state field *)

Definition init : option (Undoable Transaction) := None.

Definition apply (this : Plugin) (tr : Transaction)
    (prev : option (Undoable Transaction)) : option (Undoable Transaction) :=
  match getMeta tr this with
  | Some stored => Some stored
  | None => if selectionSet tr || docChanged tr then None else prev
  end.

(** ** Effects of [run]

    [run] acts on the world in three ways: it executes a rule's pattern,
    it calls a rule's handler, and it dispatches a transaction to the
    view.  The world is the view together with the sequence of these
    events, oldest first. *)

Inductive Event :=
| EvExec (i : nat) (subject : jsstring)
| EvHandler (i : nat) (m : RegExpMatch) (start end_ : Z)
| EvDispatch (tr : Transaction).

Record World := {
  w_view : EditorView;
  w_events : list Event
}.

Definition Eff (A : Type) : Type := World -> Completion A * World.

Definition ret {A} (a : A) : Eff A := fun w => (Normal a, w).

(** The completion of a call, in the world as it is. *)
Definition lift {A} (c : Completion A) : Eff A := fun w => (c, w).

Definition bind {A B} (c : Eff A) (k : A -> Eff B) : Eff B :=
  fun w => match c w with
           | (Normal a, w') => k a w'
           | (Throw, w') => (Throw, w')
           end.

Definition emit (e : Event) : Eff unit :=
  fun w => (Normal tt,
            {| w_view := w_view w; w_events := w_events w ++ [e] |}).

Definition exec (i : nat) (re : RegExp) (subject : jsstring)
    : Eff (option RegExpMatch) :=
  bind (emit (EvExec i subject)) (fun _ => ret (re subject)).

Definition call (i : nat) (h : InputRuleHandler) (state : EditorState)
    (m : RegExpMatch) (start end_ : Z) : Eff (option Transaction) :=
  bind (emit (EvHandler i m start end_))
       (fun _ => lift (h state m start end_)).

Definition dispatch (tr : Transaction) : Eff unit :=
  fun w => (Normal tt,
            {| w_view := view_dispatch (w_view w) tr;
               w_events := w_events w ++ [EvDispatch tr] |}).

Definition view : Eff EditorView := fun w => (Normal (w_view w), w).

Notation "x <- c ;; k" := (bind c (fun x => k))
  (at level 61, c at next level, right associativity).

(** ** [run] *)

(** The loop of [run], from rule [i] on. *)
Fixpoint run_rules (i : nat) (rules : list InputRule) (state : EditorState)
    (from to : Z) (text textBefore : jsstring) (plugin : Plugin) : Eff bool :=
  match rules with
  | [] => ret false
  | rule :: rest =>
      m <- exec i (rule_match rule) textBefore ;;
      tr <- match m with
            | Some m =>
                call i (rule_handler rule) state m
                     (from - (len (matched m) - len text)) to
            | None => ret None
            end ;;
      match tr with
      | None => run_rules (S i) rest state from to text textBefore plugin
      | Some tr =>
          _ <- dispatch (setMeta tr plugin
                 {| transform := tr; from := from; to := to; text := text |}) ;;
          ret true
      end
  end.

(** The text [run] matches the patterns against. *)
Definition textBefore_of (state : EditorState) (from : Z) (text : jsstring)
    : jsstring :=
  let rfrom := resolve (state_doc state) from in
  textBetween (parent rfrom)
              (Z.max 0 (parentOffset rfrom - MAX_MATCH)) (parentOffset rfrom)
              None [65532%N]
  ++ text.

Definition run (from to : Z) (text : jsstring) (rules : list InputRule)
    (plugin : Plugin) : Eff bool :=
  v <- view ;;
  if composing v then ret false
  else
    let state := view_state v in
    let rfrom := resolve (state_doc state) from in
    if spec_code (parent rfrom) then ret false
    else
      let textBefore := textBefore_of state from text in
      run_rules 0 rules state from to text textBefore plugin.

(** ** The props of the plugin [inputRules] builds *)

Definition handleTextInput (rules : list InputRule) (plugin : Plugin)
    (from to : Z) (text : jsstring) : Eff bool :=
  run from to text rules plugin.

(** The callback [compositionend] hands to [setTimeout]. *)
Definition compositionend_later (rules : list InputRule) (plugin : Plugin)
    : Eff unit :=
  v <- view ;;
  match cursor (view_state v) with
  | Some pos => _ <- run pos pos [] rules plugin ;; ret tt
  | None => ret tt
  end.

(** What [inputRules] hands to [new Plugin]; [plugin] is the plugin
    that results, which the props and the state field refer to. *)
Record PluginSpec := {
  state_init : option (Undoable Transaction);
  state_apply : Transaction -> option (Undoable Transaction)
                -> option (Undoable Transaction);
  props_handleTextInput : Z -> Z -> jsstring -> Eff bool;
  props_compositionend : Eff unit;     (* the task it schedules *)
  spec_isInputRules : bool
}.

Definition inputRules (rules : list InputRule) (plugin : Plugin)
    : PluginSpec :=
  {| state_init := init;
     state_apply := apply plugin;
     props_handleTextInput := handleTextInput rules plugin;
     props_compositionend := compositionend_later rules plugin;
     spec_isInputRules := true |}.

(** ** [undoInputRule] *)

(** The loop over the steps to undo: [j] iterations are left, the next
    one is for index [j - 1]. *)
Fixpoint invert_steps (steps : list Step) (docs : list Node) (j : nat)
    (tr : Transaction) : Transaction :=
  match j with
  | O => tr
  | S j' =>
      match nth_error steps j' with
      | Some s =>
          invert_steps steps docs j'
                       (tr_step tr (step_invert s (nth_error docs j')))
      | None => tr   (* no such index below steps.length *)
      end
  end.

(** The transaction [undoInputRule] hands to [dispatch], when
    [schema.text] has returned the text node. *)
Definition undo_transaction (state : EditorState)
    (undoable : Undoable Transaction) : Completion Transaction :=
  let tr := state_tr state in
  let toUndo := transform undoable in
  let tr := invert_steps (tr_steps toUndo) (tr_docs toUndo)
                         (List.length (tr_steps toUndo)) tr in
  let marks := marks (resolve (tr_doc tr) (from undoable)) in
  cmap (replaceWith tr (from undoable) (to undoable))
       (schema_text (text undoable) marks).

Fixpoint undo_plugins (plugins : list Plugin) (state : EditorState)
    (dispatch : option (Transaction -> Eff bool)) : Eff bool :=
  match plugins with
  | [] => ret false
  | plugin :: rest =>
      match (if isInputRules plugin then getState plugin state else None) with
      | Some undoable =>
          _ <- match dispatch with
               | Some dispatch =>
                   tr <- lift (undo_transaction state undoable) ;;
                   _ <- dispatch tr ;;
                   ret tt
               | None => ret tt
               end ;;
          ret true
      | None => undo_plugins rest state dispatch
      end
  end.

Definition undoInputRule (state : EditorState)
    (dispatch : option (Transaction -> Eff bool)) : Eff bool :=
  undo_plugins (state_plugins state) state dispatch.

End InputRules.

Notation "x <- c ;; k" := (bind c (fun x => k))
  (at level 61, c at next level, right associativity).

(* ================================================================== *)
(** * The substitution, in the words of the specification *)
(* ================================================================== *)

(** "G is the first non-empty capturing group, may be absent". *)
Fixpoint first_nonempty_group (gs : list (option jsstring))
    : option jsstring :=
  match gs with
  | [] => None
  | Some (c :: g) :: _ => Some (c :: g)
  | _ :: gs' => first_nonempty_group gs'
  end.

(** The string substitution algorithm of the specification, for the
    replacement [R] and the match [m], on the range [start, end_): the
    text to insert and the range it replaces. *)
Definition spec_substitution (R : jsstring) (m : RegExpMatch)
    (start end_ : Z) : jsstring * Z * Z :=
  let M := matched m in
  match first_nonempty_group (groups m) with
  | None => (R, start, end_)
  | Some G =>
      let groupOffset := lastIndexOf M G in
      let suffix := sliceFrom M (groupOffset + len G) in
      let insertText := R ++ suffix in
      let start := start + groupOffset in
      let cutOff := start - end_ in
      if 0 <? cutOff
      then (slice M (groupOffset - cutOff) groupOffset ++ insertText,
            end_, end_)
      else (insertText, start, end_)
  end.

(* ================================================================== *)
(** * Notions used in the statements *)
(* ================================================================== *)

(** [p] occurs in [s] at index [k]. *)
Definition occurs_at (s p : jsstring) (k : nat) : Prop :=
  firstn (List.length p) (skipn k s) = p.

(** [k] is the index of the last occurrence of [p] in [s]. *)
Definition last_occurrence (s p : jsstring) (k : nat) : Prop :=
  occurs_at s p k /\ forall j, occurs_at s p j -> (j <= k)%nat.

Section Notions.

Context {H : Host}.

Section Window.

Variables (state : EditorState) (from to : Z) (text textBefore : jsstring)
          (plugin : Plugin).

(** The start [run] computes for a match. *)
Definition match_start (m : RegExpMatch) : Z :=
  from - (len (matched m) - len text).

(** What a rule answers on the window: the transaction of its handler,
    when its pattern matches and its handler gives one. *)
Definition answer (rule : InputRule)
    : Completion (option Transaction) :=
  match rule_match rule textBefore with
  | Some m => rule_handler rule state m (match_start m) to
  | None => Normal None
  end.

(** The events of trying rule number [i]. *)
Definition try_events (i : nat) (rule : InputRule) : list Event :=
  EvExec i textBefore
  :: match rule_match rule textBefore with
     | Some m => [EvHandler i m (match_start m) to]
     | None => []
     end.

(** The events of trying, in order, rules that are numbered from [i]. *)
Fixpoint tries_events (i : nat) (rules : list InputRule) : list Event :=
  match rules with
  | [] => []
  | rule :: rest => try_events i rule ++ tries_events (S i) rest
  end.

(** The transaction [run] dispatches for the transaction of a handler. *)
Definition tagged (tr : Transaction) : Transaction :=
  setMeta tr plugin (Build_Undoable tr from to text).

(** The world with more events and the same view. *)
Definition log (w : World) (evs : list Event) : World :=
  {| w_view := w_view w; w_events := w_events w ++ evs |}.

(** The world after [run] has applied the transaction [tr], with the
    events [evs] before it. *)
Definition applied (w : World) (evs : list Event) (tr : Transaction)
    : World :=
  {| w_view := view_dispatch (w_view w) (tagged tr);
     w_events := w_events w ++ evs ++ [EvDispatch (tagged tr)] |}.

Definition is_dispatch (e : Event) : bool :=
  match e with
  | EvDispatch _ => true
  | _ => false
  end.

End Window.

(** The two guards of [run]: the view is composing, or the parent of the
    insertion point is a code node. *)
Definition guarded (v : EditorView) (pos : Z) : bool :=
  composing v
  || spec_code (parent (resolve (state_doc (view_state v)) pos)).

(** The state of the plugin [this] after the updates [trs], oldest first,
    from the state [prev]. *)
Definition field_after (this : Plugin) (trs : list Transaction)
    (prev : option (Undoable Transaction)) : option (Undoable Transaction) :=
  fold_left (fun s tr => apply this tr s) trs prev.

(** An update that has no metadata for the plugin and changes neither
    the selection nor the document. *)
Definition quiet (this : Plugin) (tr : Transaction) : Prop :=
  getMeta tr this = None /\ selectionSet tr = false /\ docChanged tr = false.

(** The record [undoInputRule] reads from a plugin: the state of a plugin
    tagged [isInputRules], when it is not none. *)
Definition undoable_of (st : EditorState) (p : Plugin)
    : option (Undoable Transaction) :=
  if isInputRules p then getState p st else None.

(** The first record among the plugins, in their order. *)
Fixpoint find_undoable (st : EditorState) (plugins : list Plugin)
    : option (Undoable Transaction) :=
  match plugins with
  | [] => None
  | p :: rest =>
      match undoable_of st p with
      | Some u => Some u
      | None => find_undoable st rest
      end
  end.

(** Some plugin of the state is an input rules plugin that holds a
    record. *)
Definition has_undoable (st : EditorState) : bool :=
  existsb (fun p => isInputRules p
                    && match getState p st with
                       | Some _ => true
                       | None => false
                       end)
          (state_plugins st).

(** The steps of a transform replayed: from [d], each step applies to the
    document saved for it and gives the next one, up to [dn]. *)
Fixpoint history (d : Node) (steps : list Step) (docs : list Node)
    (dn : Node) : Prop :=
  match steps, docs with
  | [], [] => d = dn
  | s :: steps', d' :: docs' =>
      d' = d /\
      exists d1, step_apply s d = Some d1 /\ history d1 steps' docs' dn
  | _, _ => False
  end.

(** The inverses of the steps of a transform, each against the document
    saved for it, last step first. *)
Definition inverses (steps : list Step) (docs : list Node) : list Step :=
  rev (List.map (fun sd => step_invert (fst sd) (Some (snd sd)))
                (combine steps docs)).

End Notions.

(* ================================================================== *)
(** * A small editor, to run the module on *)
(* ================================================================== *)

(** One text block whose positions are its inline slots; steps replace a
    range of slots.  It implements [Host] and keeps [HostLaws]. *)

Module Toy.

Inductive Slot :=
| Ch (c : char)
| Leaf.

Record TNode := {
  t_code : bool;
  t_content : list Slot
}.

Inductive TStep :=
| TReplace (a b : nat) (ins : list Slot).

#[warnings="-register-all"]
Inductive TTr :=
| mkTr (steps : list TStep) (docs : list TNode) (doc : TNode)
       (selSet : bool) (meta : list (nat * Undoable TTr)).

Record TPlugin := {
  p_key : nat;
  p_isInputRules : bool
}.

Record TState := {
  s_doc : TNode;
  s_plugins : list TPlugin;
  s_fields : list (nat * Undoable TTr);
  s_cursor : option Z
}.

Record TView := {
  v_composing : bool;
  v_state : TState
}.

Definition t_steps (tr : TTr) := let 'mkTr s _ _ _ _ := tr in s.
Definition t_docs (tr : TTr) := let 'mkTr _ d _ _ _ := tr in d.
Definition t_doc (tr : TTr) := let 'mkTr _ _ d _ _ := tr in d.
Definition t_selSet (tr : TTr) := let 'mkTr _ _ _ b _ := tr in b.
Definition t_meta (tr : TTr) := let 'mkTr _ _ _ _ m := tr in m.

Fixpoint lookup {A} (k : nat) (l : list (nat * A)) : option A :=
  match l with
  | [] => None
  | (k', a) :: l' => if Nat.eqb k k' then Some a else lookup k l'
  end.

Definition t_apply (s : TStep) (d : TNode) : option TNode :=
  let 'TReplace a b ins := s in
  if ((a <=? b) && (b <=? List.length (t_content d)))%nat
  then Some {| t_code := t_code d;
               t_content := firstn a (t_content d) ++ ins
                            ++ skipn b (t_content d) |}
  else None.

Definition t_invert (s : TStep) (d : option TNode) : TStep :=
  match s, d with
  | TReplace a b ins, Some d =>
      TReplace a (a + List.length ins)
               (firstn (b - a) (skipn a (t_content d)))
  | _, None => s
  end.

Definition t_step (tr : TTr) (s : TStep) : TTr :=
  match t_apply s (t_doc tr) with
  | Some d => mkTr (t_steps tr ++ [s]) (t_docs tr ++ [t_doc tr]) d
                   (t_selSet tr) (t_meta tr)
  | None => tr
  end.

Definition t_textBetween (n : TNode) (a b : Z) (sep : option jsstring)
    (leaf : jsstring) : jsstring :=
  flat_map (fun s => match s with Ch c => [c] | Leaf => leaf end)
           (firstn (Z.to_nat (b - a)) (skipn (Z.to_nat a) (t_content n))).

Definition t_text (s : jsstring) (ms : list unit) : TNode :=
  {| t_code := false; t_content := List.map Ch s |}.

Definition t_replace (tr : TTr) (a b : Z) (n : TNode) : TTr :=
  t_step tr (TReplace (Z.to_nat a) (Z.to_nat b) (t_content n)).

(** [schema.text] raises on the empty string. *)
Definition t_schema_text (s : jsstring) (ms : list unit)
    : Completion TNode :=
  match s with
  | [] => Throw
  | _ :: _ => Normal (t_text s ms)
  end.

(** [insertText] raises on a range that is not one of the document, the
    range whose start is beyond its end among them. *)
Definition t_insertText (tr : TTr) (s : jsstring) (a b : Z)
    : Completion TTr :=
  if (0 <=? a) && (0 <=? b)
  then match t_apply (TReplace (Z.to_nat a) (Z.to_nat b) (List.map Ch s))
                     (t_doc tr) with
       | Some _ => Normal (t_replace tr a b (t_text s []))
       | None => Throw
       end
  else Throw.

Definition t_dispatch (v : TView) (tr : TTr) : TView :=
  {| v_composing := v_composing v;
     v_state := {| s_doc := t_doc tr;
                   s_plugins := s_plugins (v_state v);
                   s_fields := t_meta tr;
                   s_cursor := s_cursor (v_state v) |} |}.

#[export] Instance host : Host := {|
  Node := TNode;
  Mark := unit;
  Step := TStep;
  Transaction := TTr;
  EditorState := TState;
  EditorView := TView;
  Plugin := TPlugin;
  resolve := fun d pos =>
    {| parent := d; parentOffset := pos; marks := [] |};
  spec_code := t_code;
  textBetween := t_textBetween;
  schema_text := t_schema_text;
  step_apply := t_apply;
  step_invert := t_invert;
  tr_steps := t_steps;
  tr_docs := t_docs;
  tr_doc := t_doc;
  tr_step := t_step;
  insertText := t_insertText;
  replaceWith := t_replace;
  setMeta := fun tr p u =>
    mkTr (t_steps tr) (t_docs tr) (t_doc tr) (t_selSet tr)
         ((p_key p, u) :: t_meta tr);
  getMeta := fun tr p => lookup (p_key p) (t_meta tr);
  selectionSet := t_selSet;
  docChanged := fun tr => negb (Nat.eqb (List.length (t_steps tr)) 0);
  state_doc := s_doc;
  state_tr := fun st => mkTr [] [] (s_doc st) false [];
  state_plugins := s_plugins;
  cursor := s_cursor;
  isInputRules := p_isInputRules;
  getState := fun p st => lookup (p_key p) (s_fields st);
  composing := v_composing;
  view_state := v_state;
  view_dispatch := t_dispatch
|}.

(** A block of text, and a view on it. *)
Definition block (s : string) : TNode :=
  {| t_code := false; t_content := List.map Ch (str s) |}.

Definition state_of (d : TNode) (ps : list TPlugin) : TState :=
  {| s_doc := d; s_plugins := ps; s_fields := []; s_cursor := None |}.

Definition world_of (composing : bool) (st : TState) : World :=
  {| w_view := {| v_composing := composing; v_state := st |};
     w_events := [] |}.

Definition plugin0 : TPlugin := {| p_key := 0; p_isInputRules := true |}.

(** The pattern [/x$/] for a literal [x]: the subject ends with [x]. *)
Definition endsWith (x : string) (gs : list (option jsstring)) : RegExp :=
  fun subject =>
    let k := (List.length subject - List.length (str x))%nat in
    if (List.length (str x) <=? List.length subject)%nat
       && JS.eqb (skipn k subject) (str x)
    then Some {| matched := str x; groups := gs |}
    else None.

End Toy.

(* ================================================================== *)
(** * Sample rules, matches and worlds *)
(* ================================================================== *)

Module Sample.
Import Toy.

(** [/--$/] to an em dash, [/-$/] to "x", and a rule on [/-$/] whose
    handler returns null. *)
Definition emdash : InputRule :=
  newInputRule (endsWith "--" []) (HString [8212%N]).

Definition dash_x : InputRule :=
  newInputRule (endsWith "-" []) (HString (str "x")).

Definition dash_veto : InputRule :=
  newInputRule (endsWith "-" []) (HFunction (fun _ _ _ _ => Normal None)).

(** The match of [-$] and the match of [(b)$] on a text that ends in "ab",
    the match of [a(b)$], and the match of [(x?)a(b)$], whose first group is
    empty. *)
Definition m_dash : RegExpMatch := {| matched := str "-"; groups := [] |}.

Definition m_b : RegExpMatch :=
  {| matched := str "b"; groups := [Some (str "b")] |}.

Definition m_ab : RegExpMatch :=
  {| matched := str "ab"; groups := [Some (str "b")] |}.

Definition m_second : RegExpMatch :=
  {| matched := str "ab"; groups := [Some []; Some (str "b")] |}.

Definition second_group : InputRule :=
  newInputRule (endsWith "ab" [Some []; Some (str "b")]) (HString (str "X")).

(** States and worlds: an empty block, a block "-", a code block "-", a
    block "a", a leaf node, "-". *)
Definition st_empty : TState := state_of (block "") [plugin0].
Definition st_dash : TState := state_of (block "-") [plugin0].

Definition w_empty : World := world_of false st_empty.
Definition w_dash : World := world_of false st_dash.
Definition w_composing : World := world_of true st_dash.

Definition w_code : World :=
  world_of false
    (state_of {| t_code := true; t_content := List.map Ch (str "-") |}
              [plugin0]).

Definition w_leaf : World :=
  world_of false
    (state_of {| t_code := false; t_content := [Ch 97%N; Leaf; Ch 45%N] |}
              [plugin0]).

(** The world after "-" has been typed after the "-" of [w_dash], with
    the rule [emdash]; its state, and the record it holds. *)
Definition w_after : World :=
  snd (run 1 1 (str "-") [emdash] plugin0 w_dash).

Definition st_after : TState := v_state (w_view w_after).

Definition u_after : Undoable TTr :=
  {| transform := t_replace (mkTr [] [] (block "-") false []) 0 1
                            (t_text [8212%N] []);
     from := 1; to := 1; text := str "-" |}.

(** The dispatch of the view, as a callback. *)
Definition by_view : TTr -> Eff bool :=
  fun tr => _ <- dispatch tr ;; ret true.

(** Updates: one that carries the record, one that changes the document,
    one that changes nothing. *)
Definition tr_rule : TTr := setMeta (transform u_after) plugin0 u_after.

Definition tr_edit : TTr :=
  t_replace (mkTr [] [] (block "-") false []) 0 0 (t_text (str "y") []).

Definition tr_idle : TTr := mkTr [] [] (block "-") false [].

End Sample.

(* ================================================================== *)
(** * Further notions: the text of a block, and the dispatch of a view *)
(* ================================================================== *)

(** The text of a block after [insertText(insert, start, end_)], when the
    positions are offsets in the text of the block. *)
Definition splice (block : jsstring) (edit : jsstring * Z * Z) : jsstring :=
  let '(insert, start, end_) := edit in
  firstn (Z.to_nat start) block ++ insert ++ skipn (Z.to_nat end_) block.

(** What the libraries promise about metadata and about the dispatch of
    a view that applies the transaction to its state: the new state has
    the document of the transaction and the same plugins, and the field of
    an input rules plugin is what its [apply] gives. *)
Class DispatchLaws (H : Host) : Prop := {
  setMeta_getMeta : forall tr p u, getMeta (setMeta tr p u) p = Some u;
  setMeta_doc : forall tr p u, tr_doc (setMeta tr p u) = tr_doc tr;
  dispatch_doc : forall v tr,
    state_doc (view_state (view_dispatch v tr)) = tr_doc tr;
  dispatch_plugins : forall v tr,
    state_plugins (view_state (view_dispatch v tr))
    = state_plugins (view_state v);
  dispatch_field : forall v tr p,
    In p (state_plugins (view_state v)) -> isInputRules p = true ->
    getState p (view_state (view_dispatch v tr))
    = apply p tr (getState p (view_state v))
}.

(** The small editor with a view that applies each transaction to the
    fields of its input rules plugins. *)
Module Toy2.
Import Toy.

Definition fields_after (ps : list TPlugin) (tr : TTr)
    (old : list (nat * Undoable TTr)) : list (nat * Undoable TTr) :=
  flat_map (fun p =>
              if p_isInputRules p
              then match @apply host p tr (lookup (p_key p) old) with
                   | Some u => [(p_key p, u)]
                   | None => []
                   end
              else [])
           ps.

Definition t_dispatch (v : TView) (tr : TTr) : TView :=
  {| v_composing := v_composing v;
     v_state := {| s_doc := t_doc tr;
                   s_plugins := s_plugins (v_state v);
                   s_fields := fields_after (s_plugins (v_state v)) tr
                                            (s_fields (v_state v));
                   s_cursor := s_cursor (v_state v) |} |}.

Definition host : Host := {|
  Node := TNode;
  Mark := unit;
  Step := TStep;
  Transaction := TTr;
  EditorState := TState;
  EditorView := TView;
  Plugin := TPlugin;
  resolve := fun d pos =>
    {| parent := d; parentOffset := pos; marks := [] |};
  spec_code := t_code;
  textBetween := t_textBetween;
  schema_text := t_schema_text;
  step_apply := t_apply;
  step_invert := t_invert;
  tr_steps := t_steps;
  tr_docs := t_docs;
  tr_doc := t_doc;
  tr_step := t_step;
  insertText := t_insertText;
  replaceWith := t_replace;
  setMeta := fun tr p u =>
    mkTr (t_steps tr) (t_docs tr) (t_doc tr) (t_selSet tr)
         ((p_key p, u) :: t_meta tr);
  getMeta := fun tr p => lookup (p_key p) (t_meta tr);
  selectionSet := t_selSet;
  docChanged := fun tr => negb (Nat.eqb (List.length (t_steps tr)) 0);
  state_doc := s_doc;
  state_tr := fun st => mkTr [] [] (s_doc st) false [];
  state_plugins := s_plugins;
  cursor := s_cursor;
  isInputRules := p_isInputRules;
  getState := fun p st => lookup (p_key p) (s_fields st);
  composing := v_composing;
  view_state := v_state;
  view_dispatch := t_dispatch
|}.

(** The rules and worlds of [Sample], on this editor. *)
Definition emdash : @InputRule host :=
  @newInputRule host (endsWith "--" []) (@HString host [8212%N]).

Definition world_of (composing : bool) (st : TState) : @World host :=
  @Build_World host {| v_composing := composing; v_state := st |} [].

Definition st_dash : TState := state_of (block "-") [plugin0].

Definition st_cursor : TState :=
  {| s_doc := block "--"; s_plugins := [plugin0]; s_fields := [];
     s_cursor := Some 2 |}.

Definition w_dash : @World host := world_of false st_dash.

(** The world after "-" has been typed after the "-" of [w_dash], with
    the rule [emdash], and its state. *)
Definition w_after : @World host :=
  snd (@run host 1 1 (str "-") [emdash] plugin0 w_dash).

Definition st_after : TState := v_state (@w_view host w_after).

(** The world after a composition has ended with the cursor after "--",
    with the rule [emdash], and its state. *)
Definition w_cursor : @World host := world_of false st_cursor.

Definition w_composed : @World host :=
  snd (@compositionend_later host [emdash] plugin0 w_cursor).

Definition st_composed : TState := v_state (@w_view host w_composed).

(** The dispatch of the view, as a callback. *)
Definition by_view : TTr -> @Eff host bool :=
  fun tr => @bind host _ _ (@dispatch host tr) (fun _ => @ret host _ true).

(** A transaction that inserts "y". *)
Definition tr_edit : TTr :=
  t_replace (mkTr [] [] (block "-") false []) 0 0 (t_text (str "y") []).

End Toy2.

(** More samples on the first editor: a world with a cursor after "--",
    and a state with three plugins, of which the second and the third are
    input rules plugins that hold a record. *)
Module Sample2.
Import Toy Sample.

Definition w_cursor : World := world_of false Toy2.st_cursor.

Definition u_other : Undoable TTr :=
  {| transform := mkTr [] [] (block "y") false [];
     from := 0; to := 0; text := str "q" |}.

Definition plugin_plain : TPlugin := {| p_key := 5; p_isInputRules := false |}.
Definition plugin1 : TPlugin := {| p_key := 1; p_isInputRules := true |}.

Definition st_several : TState :=
  {| s_doc := s_doc st_after;
     s_plugins := [plugin_plain; plugin0; plugin1];
     s_fields := [(0%nat, u_after); (1%nat, u_other)];
     s_cursor := None |}.

End Sample2.

(* ================================================================== *)
(** * Strings: what [lastIndexOf] and [slice] compute *)
(* ================================================================== *)

Lemma startsWith_spec (s p : jsstring) :
  startsWith s p = true <-> firstn (List.length p) s = p.
Proof.
  revert s; induction p as [|y p IH]; intros s; simpl.
  - split; auto.
  - destruct s as [|x s]; simpl.
    + split; discriminate.
    + rewrite andb_true_iff, N.eqb_eq, IH. split.
      * intros [-> ->]. reflexivity.
      * intros E. injection E as -> E. split; [reflexivity | exact E].
Qed.

Lemma occurs_at_bound (s p : jsstring) (k : nat) :
  p <> [] -> occurs_at s p k -> (k + List.length p <= List.length s)%nat.
Proof.
  unfold occurs_at. intros Hp E.
  assert (L : List.length (firstn (List.length p) (skipn k s)) = List.length p)
    by (rewrite E; reflexivity).
  rewrite length_firstn, length_skipn in L.
  assert (Hl : (0 < List.length p)%nat)
    by (destruct p; [contradiction | simpl; lia]).
  lia.
Qed.

Lemma lastIndexOf_down_spec (s p : jsstring) (k : nat) :
  (lastIndexOf_down s p k = -1 /\
   forall j, (j <= k)%nat -> ~ occurs_at s p j)
  \/ exists i, lastIndexOf_down s p k = Z.of_nat i /\ (i <= k)%nat /\
               occurs_at s p i /\
               forall j, (i < j <= k)%nat -> ~ occurs_at s p j.
Proof.
  induction k as [|k IH]; cbn [lastIndexOf_down].
  - destruct (startsWith (skipn 0 s) p) eqn:E.
    + right. exists 0%nat.
      split; [reflexivity|]. split; [lia|].
      split; [apply startsWith_spec; exact E|]. intros j Hj. lia.
    + left. split; [reflexivity|]. intros j Hj O.
      assert (j = 0%nat) by lia. subst j.
      apply startsWith_spec in O. congruence.
  - destruct (startsWith (skipn (S k) s) p) eqn:E.
    + right. exists (S k).
      split; [reflexivity|]. split; [lia|].
      split; [apply startsWith_spec; exact E|]. intros j Hj. lia.
    + destruct IH as [[R N] | [i [R [Hi [O N]]]]].
      * left. split; [exact R|]. intros j Hj O.
        destruct (Nat.eq_dec j (S k)) as [->|Hne].
        -- apply startsWith_spec in O. congruence.
        -- apply (N j); [lia | exact O].
      * right. exists i.
        split; [exact R|]. split; [lia|]. split; [exact O|].
        intros j Hj O'.
        destruct (Nat.eq_dec j (S k)) as [->|Hne].
        -- apply startsWith_spec in O'. congruence.
        -- apply (N j); [lia | exact O'].
Qed.

(** On a text that occurs in [s], [lastIndexOf] is the index of its last
    occurrence. *)
Lemma lastIndexOf_last (s p : jsstring) (k : nat) :
  p <> [] -> occurs_at s p k ->
  exists i, lastIndexOf s p = Z.of_nat i /\ last_occurrence s p i.
Proof.
  intros Hp O. pose proof (occurs_at_bound Hp O) as B.
  unfold lastIndexOf.
  destruct (Nat.leb_spec (List.length p) (List.length s)) as [L|L]; [|lia].
  destruct (lastIndexOf_down_spec s p (List.length s - List.length p))
    as [[_ N] | [i [R [Hi [Oi N]]]]].
  - exfalso. apply (N k); [lia | exact O].
  - exists i. split; [exact R|]. split; [exact Oi|].
    intros j Oj. pose proof (occurs_at_bound Hp Oj) as Bj.
    destruct (Nat.le_gt_cases j i) as [?|G]; [assumption|].
    exfalso. apply (N j); [lia | exact Oj].
Qed.

(** [slice] between two indices inside the string is the sublist. *)
Lemma slice_inside (s : jsstring) (a b : nat) :
  (a <= b <= List.length s)%nat ->
  slice s (Z.of_nat a) (Z.of_nat b) = firstn (b - a) (skipn a s).
Proof.
  intros B. unfold slice, relIndex, len.
  destruct (Z.ltb_spec (Z.of_nat a) 0) as [?|_]; [lia|].
  destruct (Z.ltb_spec (Z.of_nat b) 0) as [?|_]; [lia|].
  rewrite !Z.min_l by lia. rewrite Z.max_l by lia.
  rewrite Nat2Z.id. f_equal. lia.
Qed.

Lemma sliceFrom_inside (s : jsstring) (a : nat) :
  (a <= List.length s)%nat -> sliceFrom s (Z.of_nat a) = skipn a s.
Proof.
  intros B. unfold sliceFrom, len.
  rewrite slice_inside by lia.
  apply firstn_all2. rewrite length_skipn. lia.
Qed.

(* ================================================================== *)
(** * [stringHandler] *)
(* ================================================================== *)

Section StringHandler.

Context {H : Host}.

(** Without a first group the replacement goes over the range as it is
    given. *)
Lemma stringHandler_no_group (string : jsstring) (st : EditorState)
    (m : RegExpMatch) (start end_ : Z) :
  truthy (group m 1) = false ->
  stringHandler string st m start end_
  = cmap Some (insertText (state_tr st) string start end_).
Proof.
  intros T. unfold stringHandler, stringHandler_edit.
  destruct (group m 1) as [[|c g]|]; simpl in T; try discriminate;
    reflexivity.
Qed.

(** C1 (as amended): when capture group 1 of the match is a non-empty text
    [G] that occurs in the match [M], the handler takes for the group's
    offset the index of the last occurrence of [G] in [M] and calls
    [insertText] with the replacement followed by what [M] has after the
    group.  When the start moved by the offset is not beyond the end, the
    range goes from the moved start to the end.  When it is [cutOff > 0]
    beyond the end and [cutOff] is at most the offset, the range is empty
    at the end and the [cutOff] characters of [M] just before the group are
    put in front of the text. *)
Theorem stringHandler_group1 (re : RegExp) (string : jsstring)
    (st : EditorState) (m : RegExpMatch) (start end_ : Z) (G : jsstring) :
  group m 1 = Some G -> G <> [] ->
  (exists k, occurs_at (matched m) G k) ->
  exists groupOffset : nat,
    last_occurrence (matched m) G groupOffset /\
    (start + Z.of_nat groupOffset - end_ <= 0 ->
     rule_handler (newInputRule re (HString string)) st m start end_
     = cmap Some
         (insertText (state_tr st)
            (string ++ skipn (groupOffset + List.length G) (matched m))
            (start + Z.of_nat groupOffset) end_)) /\
    (forall cutOff : nat,
       start + Z.of_nat groupOffset - end_ = Z.of_nat cutOff ->
       (0 < cutOff <= groupOffset)%nat ->
       rule_handler (newInputRule re (HString string)) st m start end_
       = cmap Some
           (insertText (state_tr st)
              (firstn cutOff (skipn (groupOffset - cutOff) (matched m))
               ++ string
               ++ skipn (groupOffset + List.length G) (matched m))
              end_ end_)).
Proof.
  intros HG Hne [k Hk].
  destruct (lastIndexOf_last Hne Hk) as [i [Hi Hlast]].
  pose proof (occurs_at_bound Hne (proj1 Hlast)) as B.
  exists i. split; [exact Hlast|].
  assert (E : stringHandler_edit string m start end_
              = if 0 <? start + Z.of_nat i - end_
                then (slice (matched m)
                            (Z.of_nat i - (start + Z.of_nat i - end_))
                            (Z.of_nat i)
                      ++ string
                      ++ skipn (i + List.length G) (matched m),
                      end_, end_)
                else (string ++ skipn (i + List.length G) (matched m),
                      start + Z.of_nat i, end_)).
  { unfold stringHandler_edit. rewrite HG.
    destruct G as [|c G]; [contradiction|].
    cbv beta iota zeta. rewrite Hi.
    replace (Z.of_nat i + len (c :: G))
      with (Z.of_nat (i + List.length (c :: G)))
      by (unfold len; lia).
    rewrite sliceFrom_inside by exact B. reflexivity. }
  cbn [newInputRule rule_handler]. unfold stringHandler. rewrite E. split.
  - intros C. apply Z.ltb_ge in C. rewrite C. reflexivity.
  - intros cutOff Ec Hc.
    replace (0 <? start + Z.of_nat i - end_) with true
      by (symmetry; apply Z.ltb_lt; lia).
    rewrite Ec.
    replace (Z.of_nat i - Z.of_nat cutOff) with (Z.of_nat (i - cutOff))
      by lia.
    rewrite slice_inside by lia.
    replace (i - (i - cutOff))%nat with cutOff by lia.
    reflexivity.
Qed.

(** X14: the path of group 1 never leaves the start beyond the end: when
    capture group 1 of the match is a non-empty text, the range the handler
    gives to [insertText] does not start after its end, whatever range the
    handler is given. *)
Theorem stringHandler_range (re : RegExp) (string : jsstring)
    (st : EditorState) (m : RegExpMatch) (start end_ : Z) (G : jsstring) :
  group m 1 = Some G -> G <> [] ->
  exists insert start',
    stringHandler_edit string m start end_ = (insert, start', end_) /\
    rule_handler (newInputRule re (HString string)) st m start end_
    = cmap Some (insertText (state_tr st) insert start' end_) /\
    start' <= end_.
Proof.
  intros HG Hne. cbn [newInputRule rule_handler].
  unfold stringHandler, stringHandler_edit. rewrite HG.
  destruct G as [|c G]; [contradiction|]. cbv beta iota zeta.
  destruct (0 <? start + lastIndexOf (matched m) (c :: G) - end_) eqn:C.
  - eexists _, _. split; [reflexivity|]. split; [reflexivity|]. lia.
  - apply Z.ltb_ge in C.
    eexists _, _. split; [reflexivity|]. split; [reflexivity|]. lia.
Qed.

End StringHandler.

(* ================================================================== *)
(** * [run] *)
(* ================================================================== *)

Section Runner.

Context {H : Host}.

Variables (state : EditorState) (from to : Z) (text textBefore : jsstring)
          (plugin : Plugin).

Lemma log_nil (w : World) : log w [] = w.
Proof. destruct w. unfold log. simpl. rewrite app_nil_r. reflexivity. Qed.

Lemma log_log (w : World) (a b : list Event) :
  log (log w a) b = log w (a ++ b).
Proof. unfold log. simpl. rewrite app_assoc. reflexivity. Qed.

Lemma applied_log (w : World) (a b : list Event) (tr : Transaction) :
  applied from to text plugin (log w a) b tr
  = applied from to text plugin w (a ++ b) tr.
Proof. unfold applied, log. simpl. rewrite <- !app_assoc. reflexivity. Qed.

Lemma run_rules_declines (i : nat) (rule : InputRule)
    (rest : list InputRule) (w : World) :
  answer state from to text textBefore rule = Normal None ->
  run_rules i (rule :: rest) state from to text textBefore plugin w
  = run_rules (S i) rest state from to text textBefore plugin
              (log w (try_events from to text textBefore i rule)).
Proof.
  unfold answer, try_events, match_start. intros A. cbn [run_rules].
  cbv [bind exec call emit ret lift].
  destruct (rule_match rule textBefore) as [m|].
  - rewrite A. cbn [w_view w_events].
    unfold log. rewrite <- app_assoc. reflexivity.
  - reflexivity.
Qed.

Lemma run_rules_answers (i : nat) (rule : InputRule)
    (rest : list InputRule) (w : World) (tr : Transaction) :
  answer state from to text textBefore rule = Normal (Some tr) ->
  run_rules i (rule :: rest) state from to text textBefore plugin w
  = (Normal true,
     applied from to text plugin w
             (try_events from to text textBefore i rule) tr).
Proof.
  unfold answer, try_events, match_start. intros A. cbn [run_rules].
  cbv [bind exec call emit ret dispatch lift].
  destruct (rule_match rule textBefore) as [m|]; [|discriminate].
  rewrite A. cbn [w_view w_events].
  unfold applied, tagged. rewrite <- !app_assoc. reflexivity.
Qed.

Lemma run_rules_throws (i : nat) (rule : InputRule)
    (rest : list InputRule) (w : World) :
  answer state from to text textBefore rule = Throw ->
  run_rules i (rule :: rest) state from to text textBefore plugin w
  = (Throw, log w (try_events from to text textBefore i rule)).
Proof.
  unfold answer, try_events, match_start. intros A. cbn [run_rules].
  cbv [bind exec call emit ret lift].
  destruct (rule_match rule textBefore) as [m|]; [|discriminate].
  rewrite A. cbn [w_view w_events].
  unfold log. rewrite <- app_assoc. reflexivity.
Qed.

(** The loop, on every list of rules: either every rule declines and the
    loop ends on [false] having tried them all; or the first rule that
    does not decline gives a transaction, which is applied, and nothing
    after it is tried; or the handler of the first rule that does not
    decline raises, and so does the loop, with nothing dispatched. *)
Lemma run_rules_outcome (rules : list InputRule) (i : nat) (w : World) :
  (Forall (fun r => answer state from to text textBefore r = Normal None)
          rules /\
   run_rules i rules state from to text textBefore plugin w
   = (Normal false, log w (tries_events from to text textBefore i rules)))
  \/ (exists pre rule rest tr,
        rules = pre ++ rule :: rest /\
        Forall (fun r => answer state from to text textBefore r
                         = Normal None) pre /\
        answer state from to text textBefore rule = Normal (Some tr) /\
        run_rules i rules state from to text textBefore plugin w
        = (Normal true,
           applied from to text plugin w
             (tries_events from to text textBefore i pre
              ++ try_events from to text textBefore (i + List.length pre)
                            rule)
             tr))
  \/ (exists pre rule rest,
        rules = pre ++ rule :: rest /\
        Forall (fun r => answer state from to text textBefore r
                         = Normal None) pre /\
        answer state from to text textBefore rule = Throw /\
        run_rules i rules state from to text textBefore plugin w
        = (Throw,
           log w (tries_events from to text textBefore i pre
                  ++ try_events from to text textBefore
                                (i + List.length pre) rule))).
Proof.
  revert i w. induction rules as [|r rules IH]; intros i w.
  - left. split; [constructor|]. cbn. rewrite log_nil. reflexivity.
  - destruct (answer state from to text textBefore r) as [[tr|]|] eqn:A.
    + right. left. exists [], r, rules, tr.
      split; [reflexivity|]. split; [constructor|]. split; [exact A|].
      rewrite (@run_rules_answers i r rules w tr A).
      cbn [tries_events List.length app]. rewrite Nat.add_0_r. reflexivity.
    + rewrite (@run_rules_declines i r rules w A).
      destruct (IH (S i) (log w (try_events from to text textBefore i r)))
        as [[D E] | [[pre [rule [rest [tr [S [D [A' E]]]]]]]
                    | [pre [rule [rest [S [D [A' E]]]]]]]].
      * left. split; [constructor; assumption|].
        rewrite E, log_log. reflexivity.
      * right. left. exists (r :: pre), rule, rest, tr.
        split; [rewrite S; reflexivity|].
        split; [constructor; assumption|]. split; [exact A'|].
        rewrite E, applied_log. cbn [tries_events List.length].
        rewrite <- app_assoc, Nat.add_succ_r. reflexivity.
      * right. right. exists (r :: pre), rule, rest.
        split; [rewrite S; reflexivity|].
        split; [constructor; assumption|]. split; [exact A'|].
        rewrite E, log_log. cbn [tries_events List.length].
        rewrite <- app_assoc, Nat.add_succ_r. reflexivity.
    + right. right. exists [], r, rules.
      split; [reflexivity|]. split; [constructor|]. split; [exact A|].
      rewrite (@run_rules_throws i r rules w A).
      cbn [tries_events List.length app]. rewrite Nat.add_0_r. reflexivity.
Qed.

Lemma try_events_exec (i j : nat) (rule : InputRule) (subject : jsstring) :
  In (EvExec j subject) (try_events from to text textBefore i rule) ->
  subject = textBefore.
Proof.
  unfold try_events. intros [E | I].
  - congruence.
  - destruct (rule_match rule textBefore); simpl in I;
      [destruct I as [E | []]; discriminate | contradiction].
Qed.

Lemma tries_events_exec (rules : list InputRule) (i j : nat)
    (subject : jsstring) :
  In (EvExec j subject) (tries_events from to text textBefore i rules) ->
  subject = textBefore.
Proof.
  revert i. induction rules as [|r rules IH]; intros i; cbn [tries_events].
  - contradiction.
  - intros I. apply in_app_or in I. destruct I as [I | I].
    + eapply try_events_exec; eassumption.
    + eapply IH; eassumption.
Qed.

Lemma try_events_no_dispatch (i : nat) (rule : InputRule) :
  existsb is_dispatch (try_events from to text textBefore i rule) = false.
Proof.
  unfold try_events. destruct (rule_match rule textBefore); reflexivity.
Qed.

Lemma tries_events_no_dispatch (rules : list InputRule) (i : nat) :
  existsb is_dispatch (tries_events from to text textBefore i rules) = false.
Proof.
  revert i. induction rules as [|r rules IH]; intros i; cbn [tries_events].
  - reflexivity.
  - rewrite existsb_app, try_events_no_dispatch, IH. reflexivity.
Qed.

Lemma run_rules_skip (pre rest : list InputRule) (i : nat) (w : World) :
  Forall (fun r => answer state from to text textBefore r = Normal None)
         pre ->
  run_rules i (pre ++ rest) state from to text textBefore plugin w
  = run_rules (i + List.length pre) rest state from to text textBefore plugin
              (log w (tries_events from to text textBefore i pre)).
Proof.
  revert i w. induction pre as [|r pre IH]; intros i w D.
  - cbn [app tries_events List.length]. rewrite Nat.add_0_r, log_nil.
    reflexivity.
  - inversion D as [|? ? Dr Dpre]; subst.
    cbn [app]. rewrite (@run_rules_declines i r _ w Dr).
    rewrite (IH (S i) _ Dpre), log_log.
    cbn [tries_events List.length]. rewrite Nat.add_succ_r. reflexivity.
Qed.

End Runner.

Section RunTheorems.

Context {H : Host}.

Variables (from to : Z) (text : jsstring) (plugin : Plugin) (w : World).

Lemma run_guarded (rules : list InputRule) :
  guarded (w_view w) from = true ->
  run from to text rules plugin w = (Normal false, w).
Proof.
  unfold guarded. intros G. cbv [run bind view].
  destruct (composing (w_view w)); [reflexivity|].
  simpl in G. rewrite G. reflexivity.
Qed.

Lemma run_unguarded (rules : list InputRule) :
  guarded (w_view w) from = false ->
  run from to text rules plugin w
  = run_rules 0 rules (view_state (w_view w)) from to text
              (textBefore_of (view_state (w_view w)) from text) plugin w.
Proof.
  unfold guarded. intros G. apply orb_false_iff in G. destruct G as [C S].
  cbv [run bind view]. rewrite C, S. reflexivity.
Qed.

(** C3: when no guard holds, [run] tries the rules in the order of the
    list, each on the same window, and applies at most one: either no rule
    answers (its pattern fails or its handler gives nothing), all have been
    tried and the result is [false]; or the first rule that answers is
    applied, by one dispatch of its transaction, the result is [true], and
    no later rule is tried, whether it matches or not.  And when the
    handler of the first rule that does not decline raises, [run] raises:
    nothing is dispatched and no later rule is tried. *)
Theorem run_first_match (rules : list InputRule) :
  guarded (w_view w) from = false ->
  let state := view_state (w_view w) in
  let textBefore := textBefore_of state from text in
  (Forall (fun r => answer state from to text textBefore r = Normal None)
          rules /\
   run from to text rules plugin w
   = (Normal false, log w (tries_events from to text textBefore 0 rules)))
  \/ (exists pre rule rest tr,
        rules = pre ++ rule :: rest /\
        Forall (fun r => answer state from to text textBefore r
                         = Normal None) pre /\
        answer state from to text textBefore rule = Normal (Some tr) /\
        run from to text rules plugin w
        = (Normal true,
           applied from to text plugin w
             (tries_events from to text textBefore 0 pre
              ++ try_events from to text textBefore
                            (List.length pre) rule)
             tr))
  \/ (exists pre rule rest,
        rules = pre ++ rule :: rest /\
        Forall (fun r => answer state from to text textBefore r
                         = Normal None) pre /\
        answer state from to text textBefore rule = Throw /\
        run from to text rules plugin w
        = (Throw,
           log w (tries_events from to text textBefore 0 pre
                  ++ try_events from to text textBefore
                                (List.length pre) rule))).
Proof.
  intros G state textBefore. rewrite (run_unguarded rules G).
  exact (run_rules_outcome state from to text textBefore plugin rules 0 w).
Qed.

(** C4: a rule whose pattern matches and whose handler returns null does
    not end the loop: after the rules before it have declined, [run] goes
    on with the rules after it, on the same window, and a rule among them
    that answers is applied. *)
Theorem run_falls_through (pre : list InputRule) (rule : InputRule)
    (rest : list InputRule) (m : RegExpMatch) :
  guarded (w_view w) from = false ->
  let state := view_state (w_view w) in
  let textBefore := textBefore_of state from text in
  Forall (fun r => answer state from to text textBefore r = Normal None)
         pre ->
  rule_match rule textBefore = Some m ->
  rule_handler rule state m (match_start from text m) to = Normal None ->
  run from to text (pre ++ rule :: rest) plugin w
  = run_rules (S (List.length pre)) rest state from to text textBefore plugin
      (log w (tries_events from to text textBefore 0 pre
              ++ [EvExec (List.length pre) textBefore;
                  EvHandler (List.length pre) m (match_start from text m) to]))
  /\ forall next rest' tr,
       rest = next :: rest' ->
       answer state from to text textBefore next = Normal (Some tr) ->
       run from to text (pre ++ rule :: rest) plugin w
       = (Normal true,
          applied from to text plugin w
            (tries_events from to text textBefore 0 pre
             ++ [EvExec (List.length pre) textBefore;
                 EvHandler (List.length pre) m (match_start from text m) to]
             ++ try_events from to text textBefore
                           (S (List.length pre)) next)
            tr).
Proof.
  intros G state textBefore D M N.
  assert (A : answer state from to text textBefore rule = Normal None)
    by (unfold answer; rewrite M; exact N).
  assert (E : run from to text (pre ++ rule :: rest) plugin w
    = run_rules (S (List.length pre)) rest state from to text textBefore plugin
        (log w (tries_events from to text textBefore 0 pre
                ++ [EvExec (List.length pre) textBefore;
                    EvHandler (List.length pre) m
                              (match_start from text m) to]))).
  { rewrite (run_unguarded _ G).
    fold state. fold textBefore.
    rewrite (run_rules_skip state from to text textBefore plugin
                            (rule :: rest) 0 w D).
    rewrite (@run_rules_declines _ state from to text textBefore plugin
               _ rule rest _ A).
    rewrite log_log. unfold try_events. rewrite M. reflexivity. }
  split; [exact E|].
  intros next rest' tr -> A'. rewrite E.
  rewrite (@run_rules_answers _ state from to text textBefore plugin
             _ next rest' _ tr A').
  rewrite applied_log, <- app_assoc. reflexivity.
Qed.

(** C5: when the view is composing, or when the parent of the insertion
    point is a code node, [run] returns [false] and leaves the world as it
    is: no pattern is executed, no handler is called, nothing is
    dispatched, whatever the rules are. *)
Theorem run_guards (rules : list InputRule) :
  composing (w_view w) = true
  \/ spec_code (parent (resolve (state_doc (view_state (w_view w))) from))
     = true ->
  run from to text rules plugin w = (Normal false, w).
Proof.
  intros G. apply run_guarded. unfold guarded.
  destruct G as [-> | ->]; [reflexivity | apply orb_true_r].
Qed.

(** C10: when [run] returns [false], nothing was dispatched: the view,
    and with it the document and every plugin state, is the one before the
    call, and the events of the call hold no dispatch. *)
Theorem run_not_handled (rules : list InputRule) :
  fst (run from to text rules plugin w) = Normal false ->
  let w' := snd (run from to text rules plugin w) in
  w_view w' = w_view w /\
  (exists evs, w_events w' = w_events w ++ evs /\
               existsb is_dispatch evs = false) /\
  state_doc (view_state (w_view w')) = state_doc (view_state (w_view w)) /\
  forall p, getState p (view_state (w_view w'))
            = getState p (view_state (w_view w)).
Proof.
  intros F w'.
  assert (E : exists evs, w' = log w evs /\ existsb is_dispatch evs = false).
  { subst w'. destruct (guarded (w_view w) from) eqn:G.
    - rewrite (run_guarded rules G). exists []. rewrite log_nil.
      split; reflexivity.
    - rewrite (run_unguarded rules G) in F |- *.
      destruct (run_rules_outcome (view_state (w_view w)) from to text
                  (textBefore_of (view_state (w_view w)) from text)
                  plugin rules 0 w)
        as [[_ E] | [[pre [rule [rest [tr [_ [_ [_ E]]]]]]]
                    | [pre [rule [rest [_ [_ [_ E]]]]]]]].
      + rewrite E. eexists. split; [reflexivity|].
        apply tries_events_no_dispatch.
      + rewrite E in F. discriminate.
      + rewrite E in F. discriminate. }
  destruct E as [evs [-> N]]. cbn [log w_view w_events].
  split; [reflexivity|]. split; [exists evs; split; [reflexivity | exact N]|].
  split; reflexivity.
Qed.

End RunTheorems.

Section Subject.

Context {H : Host} {L : HostLaws H}.

Variables (from to : Z) (text : jsstring) (plugin : Plugin) (w : World).

(** C6: the text the patterns are executed on is the text of the parent
    block between at most 500 positions before the insertion point (not
    before the start of the block) and the insertion point, a leaf node
    being the one character U+FFFC, followed by the text being inserted;
    that part of the block is at most 500 characters long, and every
    pattern [run] executes is executed on exactly this text. *)
Theorem run_subject (rules : list InputRule) :
  let state := view_state (w_view w) in
  let rfrom := resolve (state_doc state) from in
  let a := Z.max 0 (parentOffset rfrom - 500) in
  let window :=
    textBetween (parent rfrom) a (parentOffset rfrom) None [65532%N] in
  (0 <= a /\ parentOffset rfrom - a <= 500 /\
   (a = 0 \/ a = parentOffset rfrom - 500)) /\
  (List.length window <= 500)%nat /\
  (exists evs,
     w_events (snd (run from to text rules plugin w)) = w_events w ++ evs /\
     forall i subject, In (EvExec i subject) evs -> subject = window ++ text)
  /\
  (guarded (w_view w) from = false ->
   forall rule rest, rules = rule :: rest ->
   exists evs,
     w_events (snd (run from to text rules plugin w))
     = w_events w ++ EvExec 0 (window ++ text) :: evs).
Proof.
  intros state rfrom a window.
  assert (T : textBefore_of state from text = window ++ text) by reflexivity.
  split; [subst a; lia|].
  split.
  { subst window.
    pose proof (textBetween_length (parent rfrom) a (parentOffset rfrom)
                                   65532%N) as B.
    subst a. eapply Nat.le_trans; [exact B|]. lia. }
  split.
  - destruct (guarded (w_view w) from) eqn:G.
    + rewrite (run_guarded from to text plugin w rules G).
      exists []. split; [cbn; rewrite app_nil_r; reflexivity|].
      intros i subject [].
    + rewrite (run_unguarded from to text plugin w rules G).
      destruct (run_rules_outcome (view_state (w_view w)) from to text
                  (textBefore_of (view_state (w_view w)) from text)
                  plugin rules 0 w)
        as [[_ E] | [[pre [rule [rest [tr [_ [_ [_ E]]]]]]]
                    | [pre [rule [rest [_ [_ [_ E]]]]]]]];
        rewrite E; cbn [snd log applied w_events]; fold state; rewrite T;
        eexists; (split; [reflexivity|]); intros i subject I.
      * eapply tries_events_exec; eassumption.
      * apply in_app_or in I. destruct I as [I | [I | []]]; [|discriminate].
        apply in_app_or in I. destruct I as [I | I].
        -- eapply tries_events_exec; eassumption.
        -- eapply try_events_exec; eassumption.
      * apply in_app_or in I. destruct I as [I | I].
        -- eapply tries_events_exec; eassumption.
        -- eapply try_events_exec; eassumption.
  - intros G rule rest ->. rewrite (run_unguarded from to text plugin w _ G).
    fold state. rewrite T.
    destruct (answer state from to text (window ++ text) rule)
      as [[tr|]|] eqn:A.
    + rewrite (@run_rules_answers _ state from to text _ plugin
                 0%nat rule rest w tr A).
      cbn [snd applied w_events try_events app]. eexists. reflexivity.
    + rewrite (@run_rules_declines _ state from to text _ plugin
                 0%nat rule rest w A).
      destruct (run_rules_outcome state from to text (window ++ text) plugin
                  rest 1 (log w (try_events from to text (window ++ text)
                                            0 rule)))
        as [[_ E] | [[pre [r [rest' [tr [_ [_ [_ E]]]]]]]
                    | [pre [r [rest' [_ [_ [_ E]]]]]]]];
        rewrite E; cbn [snd log applied w_events try_events app];
        rewrite <- app_assoc; cbn [app]; eexists; reflexivity.
    + rewrite (@run_rules_throws _ state from to text _ plugin
                 0%nat rule rest w A).
      cbn [snd log w_events try_events app]. eexists. reflexivity.
Qed.

End Subject.

(* ================================================================== *)
(** * The plugin state *)
(* ================================================================== *)

Section PluginState.

Context {H : Host}.

Lemma field_after_quiet (this : Plugin) (trs : list Transaction)
    (prev : option (Undoable Transaction)) :
  Forall (quiet this) trs -> field_after this trs prev = prev.
Proof.
  unfold field_after. revert prev.
  induction trs as [|tr trs IH]; intros prev Q; [reflexivity|].
  inversion Q as [|? ? [M [S D]] Q']; subst. cbn [fold_left].
  rewrite IH by assumption. unfold apply. rewrite M, S, D. reflexivity.
Qed.

(** C7: the state field of the plugin [inputRules] builds starts at none,
    and on every update: when the update carries a record as metadata for
    the plugin, the state becomes that record; otherwise, when the update
    set the selection or changed the document, the state becomes none;
    otherwise it stays as it was.  So after any updates, an update without
    the metadata that changes the selection or the document leaves no
    record, and none appears while the updates that follow carry no
    metadata and change nothing. *)
Theorem apply_transition (rules : list InputRule) (this : Plugin)
    (tr : Transaction) (prev : option (Undoable Transaction)) :
  let field := inputRules rules this in
  state_init field = None /\
  (forall stored, getMeta tr this = Some stored ->
                  state_apply field tr prev = Some stored) /\
  (getMeta tr this = None ->
   selectionSet tr = true \/ docChanged tr = true ->
   state_apply field tr prev = None) /\
  (getMeta tr this = None ->
   selectionSet tr = false -> docChanged tr = false ->
   state_apply field tr prev = prev) /\
  (getMeta tr this = None ->
   selectionSet tr = true \/ docChanged tr = true ->
   forall before after,
     Forall (quiet this) after ->
     fold_left (fun s t => state_apply field t s) (before ++ tr :: after) prev
     = None).
Proof.
  intros field. subst field. cbn [inputRules state_init state_apply].
  split; [reflexivity|].
  split; [intros stored E; unfold apply; rewrite E; reflexivity|].
  split.
  { intros E C. unfold apply. rewrite E.
    destruct C as [-> | ->]; [reflexivity | rewrite orb_true_r; reflexivity]. }
  split; [intros E S D; unfold apply; rewrite E, S, D; reflexivity|].
  intros M C before after Q.
  change (field_after this (before ++ tr :: after) prev = None).
  unfold field_after. rewrite fold_left_app. cbn [fold_left].
  change (field_after this after
            (apply this tr (field_after this before prev)) = None).
  rewrite (field_after_quiet _ Q). unfold apply. rewrite M.
  destruct C as [-> | ->]; [reflexivity | rewrite orb_true_r; reflexivity].
Qed.

End PluginState.

(* ================================================================== *)
(** * [undoInputRule] *)
(* ================================================================== *)

Section Undo.

Context {H : Host}.

(** What [undoInputRule] does: on the first record of an input rules
    plugin, with a callback it builds the undo transaction, which can
    raise, and calls the callback on it; without one it only answers. *)
Lemma undo_plugins_outcome (plugins : list Plugin) (st : EditorState)
    (dispatch : option (Transaction -> Eff bool)) (w : World) :
  undo_plugins plugins st dispatch w
  = match find_undoable st plugins with
    | Some u =>
        match dispatch with
        | Some callback =>
            match undo_transaction st u with
            | Normal tr =>
                (cmap (fun _ => true) (fst (callback tr w)),
                 snd (callback tr w))
            | Throw => (Throw, w)
            end
        | None => (Normal true, w)
        end
    | None => (Normal false, w)
    end.
Proof.
  induction plugins as [|p rest IH]; cbn [undo_plugins find_undoable].
  - reflexivity.
  - unfold undoable_of.
    destruct (if isInputRules p then getState p st else None) as [u|].
    + destruct dispatch as [callback|]; cbv [bind ret lift]; [|reflexivity].
      destruct (undo_transaction st u) as [tr|]; [|reflexivity].
      destruct (callback tr w) as [[b|] w']; reflexivity.
    + exact IH.
Qed.

Lemma find_undoable_some (st : EditorState) (plugins : list Plugin) :
  match find_undoable st plugins with Some _ => true | None => false end
  = existsb (fun p => isInputRules p
                      && match getState p st with
                         | Some _ => true
                         | None => false
                         end) plugins.
Proof.
  induction plugins as [|p rest IH]; cbn [find_undoable existsb].
  - reflexivity.
  - unfold undoable_of. destruct (isInputRules p); cbn [andb orb].
    + destruct (getState p st); [reflexivity | exact IH].
    + exact IH.
Qed.

Lemma combine_snoc (ss : list Step) (ds : list Node) (s : Step) (d : Node) :
  List.length ds = List.length ss ->
  combine (ss ++ [s]) (ds ++ [d]) = combine ss ds ++ [(s, d)].
Proof.
  revert ds. induction ss as [|s' ss IH]; intros [|d' ds] E;
    try discriminate; cbn [combine app].
  - reflexivity.
  - rewrite IH by (simpl in E; lia). reflexivity.
Qed.

Lemma invert_steps_snoc (steps : list Step) (docs : list Node) (s : Step)
    (d : Node) (j : nat) (tr : Transaction) :
  (j <= List.length steps)%nat -> List.length docs = List.length steps ->
  invert_steps (steps ++ [s]) (docs ++ [d]) j tr = invert_steps steps docs j tr.
Proof.
  revert tr. induction j as [|j IH]; intros tr B E; cbn [invert_steps].
  - reflexivity.
  - rewrite !nth_error_app1 by lia.
    destruct (nth_error steps j); [apply IH; lia | reflexivity].
Qed.

(** The loop of [undoInputRule] applies the inverses, last step first. *)
Lemma invert_steps_inverses (steps : list Step) (docs : list Node)
    (tr : Transaction) :
  List.length docs = List.length steps ->
  invert_steps steps docs (List.length steps) tr
  = fold_left tr_step (inverses steps docs) tr.
Proof.
  revert docs tr. induction steps as [|s steps IH] using rev_ind;
    intros docs tr E.
  - reflexivity.
  - destruct (exists_last (l := docs)) as [ds [d ->]].
    { intros ->. rewrite length_app in E. simpl in E. lia. }
    rewrite !length_app in E. cbn [List.length] in E.
    assert (E' : List.length ds = List.length steps) by lia.
    rewrite length_app. cbn [List.length]. rewrite Nat.add_1_r.
    cbn [invert_steps].
    rewrite !nth_error_app2 by lia. rewrite E', Nat.sub_diag. cbn [nth_error].
    rewrite invert_steps_snoc by lia. rewrite IH by exact E'.
    unfold inverses. rewrite combine_snoc by exact E'.
    rewrite map_app, rev_app_distr. reflexivity.
Qed.

Lemma history_length (steps : list Step) (docs : list Node) (d dn : Node) :
  history d steps docs dn -> List.length docs = List.length steps.
Proof.
  revert d docs. induction steps as [|s steps IH]; intros d [|d' docs] Hh;
    cbn [history] in Hh; try contradiction.
  - reflexivity.
  - destruct Hh as [_ [d1 [_ Hh]]]. cbn [List.length]. f_equal.
    eapply IH. exact Hh.
Qed.

Context {L : HostLaws H}.

(** Applying the inverses to a transaction that is at the last document
    of the history brings it to the first. *)
Lemma inverses_doc (steps : list Step) (docs : list Node) (d dn : Node)
    (tr : Transaction) :
  history d steps docs dn -> tr_doc tr = dn ->
  tr_doc (fold_left tr_step (inverses steps docs) tr) = d.
Proof.
  revert d docs. induction steps as [|s steps IH]; intros d [|d' docs] Hh T;
    cbn [history] in Hh; try contradiction.
  - cbn. congruence.
  - destruct Hh as [-> [d1 [A Hh]]].
    unfold inverses. cbn [combine List.map rev fst snd].
    rewrite fold_left_app. cbn [fold_left].
    apply tr_step_doc.
    fold (inverses steps docs). erewrite IH by eassumption.
    apply step_invert_apply. exact A.
Qed.

(** The transaction [undoInputRule] builds for the record [u], in a
    state whose document is the one the recorded transform ended on, when
    the text node of the typed text can be built: the inverses, last step
    first, bring the document back to [d0], and then [from, to) is replaced
    with that text node. *)
Lemma undo_transaction_restores (st : EditorState)
    (u : Undoable Transaction) (d0 : Node) (node : Node) :
  history d0 (tr_steps (transform u)) (tr_docs (transform u)) (state_doc st) ->
  schema_text (text u) (marks (resolve d0 (from u))) = Normal node ->
  let restored :=
    fold_left tr_step
              (inverses (tr_steps (transform u)) (tr_docs (transform u)))
              (state_tr st) in
  tr_doc restored = d0 /\
  undo_transaction st u
  = Normal (replaceWith restored (from u) (to u) node).
Proof.
  intros Hh N restored.
  assert (D : tr_doc restored = d0)
    by (eapply inverses_doc; [exact Hh | apply state_tr_doc]).
  assert (E : List.length (tr_docs (transform u))
              = List.length (tr_steps (transform u)))
    by (eapply history_length; exact Hh).
  split; [exact D|].
  unfold undo_transaction.
  rewrite invert_steps_inverses by exact E.
  fold restored. rewrite D, N. reflexivity.
Qed.

Lemma undo_transaction_node {S : SchemaLaws H} (st : EditorState)
    (u : Undoable Transaction) :
  text u <> [] -> exists tr, undo_transaction st u = Normal tr.
Proof.
  intros N. unfold undo_transaction.
  match goal with
  | |- context [schema_text (text u) ?ms] =>
      destruct (@schema_text_node _ _ (text u) ms N) as [n E]; rewrite E
  end.
  eexists. reflexivity.
Qed.

(** And when the typed text of the record is empty, building it raises. *)
Lemma undo_transaction_empty {S : SchemaLaws H} (st : EditorState)
    (u : Undoable Transaction) :
  text u = [] -> undo_transaction st u = Throw.
Proof.
  intros E. unfold undo_transaction. rewrite E, schema_text_empty.
  reflexivity.
Qed.

End Undo.

(* ================================================================== *)
(** * The small editor keeps the laws *)
(* ================================================================== *)

Module ToyLaws.
Import Toy.

Lemma flat_map_length1 {A B} (f : A -> list B) (l : list A) :
  (forall x, List.length (f x) = 1%nat) ->
  List.length (flat_map f l) = List.length l.
Proof.
  intros F. induction l as [|x l IH]; cbn [flat_map List.length].
  - reflexivity.
  - rewrite length_app, F, IH. reflexivity.
Qed.

(** Replacing [a, b) by [ins] and then the inserted range by what was
    there gives the content back. *)
Lemma replace_back (c ins : list Slot) (a b : nat) :
  (a <= b <= List.length c)%nat ->
  firstn a (firstn a c ++ ins ++ skipn b c)
  ++ firstn (b - a) (skipn a c)
  ++ skipn (a + List.length ins) (firstn a c ++ ins ++ skipn b c)
  = c.
Proof.
  intros B.
  assert (La : List.length (firstn a c) = a)
    by (rewrite length_firstn; lia).
  assert (S : skipn (a + List.length ins) (firstn a c ++ ins ++ skipn b c)
              = skipn b c).
  { rewrite app_assoc, skipn_app.
    rewrite skipn_all2 by (rewrite length_app; lia).
    rewrite length_app, La, Nat.sub_diag. reflexivity. }
  rewrite S.
  rewrite firstn_app, La, Nat.sub_diag, firstn_O, app_nil_r.
  rewrite firstn_all2 by lia.
  replace (skipn b c) with (skipn (b - a) (skipn a c))
    by (rewrite skipn_skipn; f_equal; lia).
  rewrite firstn_skipn. apply firstn_skipn.
Qed.

Lemma t_invert_apply (s : TStep) (d d' : TNode) :
  t_apply s d = Some d' -> t_apply (t_invert s (Some d)) d' = Some d.
Proof.
  destruct s as [a b ins]. destruct d as [code c]. unfold t_apply.
  cbn [t_content t_code].
  destruct ((a <=? b)%nat && (b <=? List.length c)%nat) eqn:C;
    [|discriminate].
  apply andb_true_iff in C. destruct C as [C1 C2].
  apply Nat.leb_le in C1. apply Nat.leb_le in C2.
  intros E. injection E as <-. cbn [t_invert t_content t_code].
  assert (La : List.length (firstn a c) = a)
    by (rewrite length_firstn; lia).
  replace ((a <=? a + List.length ins)%nat
           && (a + List.length ins
               <=? List.length (firstn a c ++ ins ++ skipn b c))%nat)
    with true.
  - rewrite replace_back by lia. reflexivity.
  - symmetry. apply andb_true_iff. split; apply Nat.leb_le; [lia|].
    rewrite !length_app, La. lia.
Qed.

#[export] Instance laws : HostLaws host.
Proof.
  constructor.
  - intros n a b c. cbn [textBetween host]. unfold t_textBetween.
    rewrite flat_map_length1 by (intros [x|]; reflexivity).
    rewrite length_firstn. lia.
  - reflexivity.
  - intros tr s d A. cbn in *. unfold t_step. rewrite A. reflexivity.
  - intros s d d' A. exact (t_invert_apply s d A).
  - intros tr tr' a b n E. cbn in *. unfold t_replace, t_step.
    rewrite E.
    destruct (t_apply (TReplace (Z.to_nat a) (Z.to_nat b) (t_content n))
                      (t_doc tr')); [reflexivity | exact E].
Qed.

#[export] Instance schema_laws : SchemaLaws host.
Proof.
  constructor.
  - reflexivity.
  - intros [|c s] ms N; [contradiction|]. eexists. reflexivity.
Qed.

End ToyLaws.

(* ================================================================== *)
(** * The module at work on the small editor *)
(* ================================================================== *)

Import Toy ToyLaws Sample.

(** ** JavaScript strings *)

Example lastIndexOf_last_one :
  lastIndexOf (str "abcabc") (str "bc") = 4.
Proof. reflexivity. Qed.

Example lastIndexOf_none : lastIndexOf (str "abc") (str "x") = -1.
Proof. reflexivity. Qed.

Example slice_negative : slice (str "hello") (-3) (-1) = str "ll".
Proof. reflexivity. Qed.

Example slice_clamped : slice (str "hello") 3 9 = str "lo".
Proof. reflexivity. Qed.

(** ** [stringHandler] *)

(** "b" typed after "a", on [a(b)$] to "X": the group is replaced. *)
Example stringHandler_replaces_group :
  stringHandler_edit (str "X") m_ab 0 1 = (str "X", 1, 1).
Proof. reflexivity. Qed.

(** "ab" typed at once at 0, on [a(b)$] to "X": the start is moved past
    the end of the range, and the "a" before the group is put back. *)
Example stringHandler_cuts_off :
  stringHandler_edit (str "X") m_ab 0 0 = (str "aX", 0, 0).
Proof. reflexivity. Qed.

(** "ab" typed at once at 0, on [(b)$] to "X": the start is one beyond
    the end, and there is no character before the group in the match: the
    slice from -1 to 0 is empty. *)
Example stringHandler_cutOff_beyond_offset :
  stringHandler_edit (str "X") m_b 1 0 = (str "X", 0, 0)
  /\ slice (matched m_b) (0 - 1) 0 = [].
Proof. split; reflexivity. Qed.

Lemma stringHandler_group1_witness :
  group m_ab 1 = Some (str "b") /\ str "b" <> [] /\
  (exists k, occurs_at (matched m_ab) (str "b") k) /\
  rule_handler (newInputRule (endsWith "ab" [Some (str "b")])
                             (HString (str "X")))
               st_empty m_ab 0 0
  = cmap Some (insertText (state_tr st_empty) (str "aX") 0 0).
Proof.
  assert (O1 : occurs_at (matched m_ab) (str "b") 1) by reflexivity.
  assert (Ne : str "b" <> []) by discriminate.
  split; [reflexivity|]. split; [exact Ne|].
  split; [exists 1%nat; exact O1|].
  destruct (@stringHandler_group1 host (endsWith "ab" [Some (str "b")])
              (str "X") st_empty m_ab 0 0 (str "b")
              eq_refl Ne (ex_intro _ 1%nat O1)) as [off [[O Mx] [_ E]]].
  assert (off = 1%nat) as ->.
  { pose proof (Mx 1%nat O1). pose proof (occurs_at_bound Ne O) as B.
    change (off + 1 <= 2)%nat in B. lia. }
  exact (E 1%nat eq_refl (conj (le_n 1) (le_n 1))).
Defined.

Lemma stringHandler_range_witness :
  group m_ab 1 = Some (str "b") /\ str "b" <> [] /\
  exists insert start',
    stringHandler_edit (str "X") m_ab 5 2 = (insert, start', 2) /\
    rule_handler (newInputRule (endsWith "ab" [Some (str "b")])
                               (HString (str "X")))
                 st_empty m_ab 5 2
    = cmap Some (insertText (state_tr st_empty) insert start' 2) /\
    start' <= 2.
Proof.
  assert (Ne : str "b" <> []) by discriminate.
  split; [reflexivity|]. split; [exact Ne|].
  exact (@stringHandler_range host (endsWith "ab" [Some (str "b")])
           (str "X") st_empty m_ab 5 2 (str "b") eq_refl Ne).
Defined.

(** C1, as the specification words it, fails.  With an empty first group
    and a second group "b" on the match "ab", the first non-empty capturing
    group is "b" and the substitution of the specification replaces
    [1, 1); the handler looks at group 1 only and replaces the whole range
    [0, 1). *)
Lemma stringHandler_not_first_nonempty_group :
  first_nonempty_group (groups m_second) = Some (str "b") /\
  stringHandler_edit (str "X") m_second 0 1 = (str "X", 0, 1) /\
  spec_substitution (str "X") m_second 0 1 = (str "X", 1, 1) /\
  stringHandler_edit (str "X") m_second 0 1
  <> spec_substitution (str "X") m_second 0 1.
Proof.
  split; [reflexivity|]. split; [reflexivity|]. split; [reflexivity|].
  discriminate.
Qed.

(** C2: "zab" typed at once at 0 in an empty block, on [(x?)a(b)$] to "X".
    The match is "ab" with an empty group 1 and the group "b"; [run] calls
    the handler on the range from 1 to 0; the handler, whose group 1 is
    empty, gives that range to [insertText] as it is, its start after its
    end; [insertText] raises, and [run] ends with the error, nothing
    dispatched. *)
Theorem stringHandler_range_second_group :
  first_nonempty_group (groups m_second) = Some (str "b") /\
  rule_match second_group (str "zab") = Some m_second /\
  match_start 0 (str "zab") m_second = 1 /\
  stringHandler_edit (str "X") m_second 1 0 = (str "X", 1, 0) /\
  ~ (1 <= 0) /\
  rule_handler second_group st_empty m_second 1 0
  = cmap Some (insertText (state_tr st_empty) (str "X") 1 0) /\
  run 0 0 (str "zab") [second_group] plugin0 w_empty
  = (Throw,
     log w_empty [EvExec 0 (str "zab"); EvHandler 0 m_second 1 0]).
Proof.
  split; [reflexivity|]. split; [reflexivity|]. split; [reflexivity|].
  split; [reflexivity|]. split; [lia|]. split; reflexivity.
Qed.

(** ** [run] *)

(** "-" typed after "-": the em dash replaces both. *)
Example run_emdash :
  fst (run 1 1 (str "-") [emdash] plugin0 w_dash) = Normal true /\
  state_doc st_after = {| t_code := false; t_content := [Ch 8212%N] |} /\
  getState plugin0 st_after = Some u_after.
Proof. repeat split. Qed.

Lemma run_first_match_witness :
  guarded (w_view w_dash) 1 = false /\
  ((Forall (fun r => answer st_dash 1 1 (str "-") (str "--") r
                     = Normal None)
           [emdash; dash_x] /\
    run 1 1 (str "-") [emdash; dash_x] plugin0 w_dash
    = (Normal false,
       log w_dash (tries_events 1 1 (str "-") (str "--") 0 [emdash; dash_x])))
   \/ (exists pre rule rest tr,
        [emdash; dash_x] = pre ++ rule :: rest /\
        Forall (fun r => answer st_dash 1 1 (str "-") (str "--") r
                         = Normal None)
               pre /\
        answer st_dash 1 1 (str "-") (str "--") rule = Normal (Some tr) /\
        run 1 1 (str "-") [emdash; dash_x] plugin0 w_dash
        = (Normal true,
           applied 1 1 (str "-") plugin0 w_dash
             (tries_events 1 1 (str "-") (str "--") 0 pre
              ++ try_events 1 1 (str "-") (str "--") (List.length pre) rule)
             tr))
   \/ (exists pre rule rest,
        [emdash; dash_x] = pre ++ rule :: rest /\
        Forall (fun r => answer st_dash 1 1 (str "-") (str "--") r
                         = Normal None)
               pre /\
        answer st_dash 1 1 (str "-") (str "--") rule = Throw /\
        run 1 1 (str "-") [emdash; dash_x] plugin0 w_dash
        = (Throw,
           log w_dash
             (tries_events 1 1 (str "-") (str "--") 0 pre
              ++ try_events 1 1 (str "-") (str "--")
                            (List.length pre) rule)))).
Proof.
  split; [reflexivity|].
  exact (@run_first_match host 1 1 (str "-") plugin0 w_dash [emdash; dash_x]
           eq_refl).
Defined.

(** Both rules match "--"; the first is applied, the second is not
    tried. *)
Example run_two_matching :
  rule_match emdash (str "--") <> None /\
  rule_match dash_x (str "--") <> None /\
  run 1 1 (str "-") [emdash; dash_x] plugin0 w_dash
  = (Normal true,
     applied 1 1 (str "-") plugin0 w_dash
       [EvExec 0 (str "--");
        EvHandler 0 {| matched := str "--"; groups := [] |} 0 1]
       (t_replace (state_tr st_dash) 0 1 (t_text [8212%N] []))).
Proof. split; [discriminate|]. split; [discriminate|]. reflexivity. Qed.

(** "zab" typed at once, with a rule that would match after the one whose
    handler raises: the error ends [run], the later rule is not tried. *)
Example run_raises :
  rule_match dash_x (str "zab") = None /\
  run 0 0 (str "zab") [dash_x; second_group; second_group] plugin0 w_empty
  = (Throw,
     log w_empty [EvExec 0 (str "zab");
                  EvExec 1 (str "zab"); EvHandler 1 m_second 1 0]).
Proof. split; reflexivity. Qed.

Lemma run_falls_through_witness :
  guarded (w_view w_dash) 1 = false /\
  rule_match dash_veto (str "--") = Some m_dash /\
  rule_handler dash_veto st_dash m_dash 1 1 = Normal None /\
  run 1 1 (str "-") [dash_veto; dash_x] plugin0 w_dash
  = (Normal true,
     applied 1 1 (str "-") plugin0 w_dash
       [EvExec 0 (str "--"); EvHandler 0 m_dash 1 1;
        EvExec 1 (str "--"); EvHandler 1 m_dash 1 1]
       (t_replace (state_tr st_dash) 1 1 (t_text (str "x") []))).
Proof.
  split; [reflexivity|]. split; [reflexivity|]. split; [reflexivity|].
  exact (proj2 (@run_falls_through host 1 1 (str "-") plugin0 w_dash
                  [] dash_veto [dash_x] m_dash
                  eq_refl (Forall_nil _) eq_refl eq_refl)
               dash_x [] _ eq_refl eq_refl).
Defined.

Lemma run_guards_witness :
  composing (w_view w_composing) = true /\
  run 1 1 (str "-") [emdash] plugin0 w_composing
  = (Normal false, w_composing) /\
  spec_code (parent (resolve (state_doc (view_state (w_view w_code))) 1))
  = true /\
  run 1 1 (str "-") [emdash] plugin0 w_code = (Normal false, w_code).
Proof.
  split; [reflexivity|].
  split; [exact (@run_guards host 1 1 (str "-") plugin0 w_composing [emdash]
                   (or_introl eq_refl))|].
  split; [reflexivity|].
  exact (@run_guards host 1 1 (str "-") plugin0 w_code [emdash]
           (or_intror eq_refl)).
Defined.

Lemma run_subject_witness :
  exists evs,
    w_events (snd (run 3 3 (str "-") [emdash] plugin0 w_leaf))
    = EvExec 0 (str "a" ++ [65532%N] ++ str "--") :: evs.
Proof.
  destruct (@run_subject host laws 3 3 (str "-") plugin0 w_leaf [emdash])
    as [_ [_ [_ F]]].
  destruct (F eq_refl emdash [] eq_refl) as [evs E].
  exists evs. exact E.
Defined.

Lemma run_not_handled_witness :
  fst (run 1 1 (str "-") [dash_veto] plugin0 w_dash) = Normal false /\
  w_view (snd (run 1 1 (str "-") [dash_veto] plugin0 w_dash)) = w_view w_dash.
Proof.
  split; [reflexivity|].
  exact (proj1 (@run_not_handled host 1 1 (str "-") plugin0 w_dash
                  [dash_veto] eq_refl)).
Defined.

(** ** The plugin state *)

Lemma apply_transition_witness :
  state_apply (inputRules [emdash] plugin0) tr_rule None = Some u_after /\
  state_apply (inputRules [emdash] plugin0) tr_edit (Some u_after) = None /\
  state_apply (inputRules [emdash] plugin0) tr_idle (Some u_after)
  = Some u_after /\
  fold_left (fun s t => state_apply (inputRules [emdash] plugin0) t s)
            [tr_rule; tr_edit; tr_idle] None
  = None.
Proof.
  split.
  { exact (proj1 (proj2 (@apply_transition host [emdash] plugin0 tr_rule
                           None))
             u_after eq_refl). }
  split.
  { exact (proj1 (proj2 (proj2
             (@apply_transition host [emdash] plugin0 tr_edit
                                (Some u_after))))
             eq_refl (or_intror eq_refl)). }
  split.
  { exact (proj1 (proj2 (proj2 (proj2
             (@apply_transition host [emdash] plugin0 tr_idle
                                (Some u_after)))))
             eq_refl eq_refl eq_refl). }
  refine (proj2 (proj2 (proj2 (proj2
            (@apply_transition host [emdash] plugin0 tr_edit None))))
            eq_refl (or_intror eq_refl) [tr_rule] [tr_idle] _).
  constructor; [repeat split | constructor].
Defined.

(** ** [undoInputRule] *)

(** After "-" typed after "-" has become an em dash, [undoInputRule] with
    the dispatch of the view brings "--" back. *)
Example undoInputRule_typed :
  fst (undoInputRule st_after (Some by_view) w_after) = Normal true /\
  state_doc (view_state
               (w_view (snd (undoInputRule st_after (Some by_view) w_after))))
  = block "--" /\
  undoInputRule st_dash (Some by_view) w_dash = (Normal false, w_dash).
Proof. repeat split. Qed.

(** C8: the state after a composition has ended with the cursor after "--"
    and the rule [emdash] has been applied: the document is the em dash and
    the input rules plugin holds the record of the rule, whose typed text is
    empty.  Without a callback [undoInputRule] returns [true]; with one it
    raises, in [schema.text] on the empty text: it returns nothing, and the
    callback is not called. *)
Theorem undoInputRule_raises_on_empty_text :
  @compositionend_later Toy2.host [Toy2.emdash] plugin0 Toy2.w_cursor
  = (Normal tt, Toy2.w_composed) /\
  (exists tr,
     @getState Toy2.host plugin0 Toy2.st_composed
     = Some {| transform := tr; from := 2; to := 2; text := [] |}) /\
  @has_undoable Toy2.host Toy2.st_composed = true /\
  @undoInputRule Toy2.host Toy2.st_composed None Toy2.w_composed
  = (Normal true, Toy2.w_composed) /\
  @undoInputRule Toy2.host Toy2.st_composed (Some Toy2.by_view)
                 Toy2.w_composed
  = (Throw, Toy2.w_composed).
Proof.
  split; [reflexivity|]. split; [eexists; reflexivity|].
  split; [reflexivity|]. split; reflexivity.
Qed.

(** C9: in that state, reached by the rule [emdash] from the document
    "--", [undoInputRule] with the dispatch of the view as callback builds
    no transaction: [schema.text] raises on the empty typed text of the
    record after the steps have been inverted, nothing is dispatched, and
    the document of the view stays the em dash instead of "--". *)
Theorem undoInputRule_composition_not_restored :
  @state_doc Toy2.host (@view_state Toy2.host (@w_view Toy2.host Toy2.w_cursor))
  = block "--" /\
  @state_doc Toy2.host Toy2.st_composed
  = {| t_code := false; t_content := [Ch 8212%N] |} /\
  (exists u,
     @find_undoable Toy2.host Toy2.st_composed
                    (@state_plugins Toy2.host Toy2.st_composed) = Some u /\
     text u = [] /\
     @history Toy2.host (block "--") (t_steps (transform u))
              (t_docs (transform u)) (@state_doc Toy2.host Toy2.st_composed) /\
     @undo_transaction Toy2.host Toy2.st_composed u = Throw) /\
  @w_events Toy2.host
    (snd (@undoInputRule Toy2.host Toy2.st_composed (Some Toy2.by_view)
                         Toy2.w_composed))
  = @w_events Toy2.host Toy2.w_composed /\
  @state_doc Toy2.host
    (@view_state Toy2.host
       (@w_view Toy2.host
          (snd (@undoInputRule Toy2.host Toy2.st_composed (Some Toy2.by_view)
                               Toy2.w_composed))))
  <> block "--".
Proof.
  split; [reflexivity|]. split; [reflexivity|]. split.
  - eexists. split; [reflexivity|]. split; [reflexivity|]. split.
    + split; [reflexivity|]. eexists. split; reflexivity.
    + reflexivity.
  - split; [reflexivity|]. discriminate.
Qed.

(* ================================================================== *)
(** * More on [stringHandler]: the text of the block *)
(* ================================================================== *)

Lemma last_occurrence_lastIndexOf (s p : jsstring) (k : nat) :
  p <> [] -> last_occurrence s p k -> lastIndexOf s p = Z.of_nat k.
Proof.
  intros Hp [O Mx].
  destruct (lastIndexOf_last Hp O) as [i [E [Oi Mi]]].
  rewrite E. f_equal. apply Nat.le_antisymm; [apply Mx | apply Mi];
    assumption.
Qed.

Lemma firstn_plus_app (A : Type) (a b : list A) (n : nat) :
  firstn (List.length a + n) (a ++ b) = a ++ firstn n b.
Proof.
  rewrite firstn_app, firstn_all2 by lia. f_equal. f_equal. lia.
Qed.

Lemma skipn_length_app (A : Type) (a b : list A) :
  skipn (List.length a) (a ++ b) = b.
Proof.
  rewrite skipn_app, skipn_all, Nat.sub_diag. reflexivity.
Qed.

Lemma firstn_within_app (A : Type) (a b : list A) (n : nat) :
  (n <= List.length a)%nat -> firstn n (a ++ b) = firstn n a.
Proof.
  intros L. rewrite firstn_app.
  replace (n - List.length a)%nat with 0%nat by lia.
  cbn [firstn]. apply app_nil_r.
Qed.

(** X1: a string rule at a caret, when group 1 of the match is empty or
    absent.  The block holds [P ++ X] before the caret and [after_] after
    it, and the match is [X] followed by the typed text: the edit of the
    handler, on the range [run] computes, turns the text of the block into
    [P], the replacement, [after_]. *)
Theorem stringHandler_caret_no_group (R P X typed after_ : jsstring)
    (m : RegExpMatch) :
  matched m = X ++ typed ->
  truthy (group m 1) = false ->
  splice ((P ++ X) ++ after_)
         (stringHandler_edit R m (match_start (len (P ++ X)) typed m)
                             (len (P ++ X)))
  = P ++ R ++ after_.
Proof.
  intros EM T. unfold stringHandler_edit.
  assert (E : match group m 1 with
              | Some ((_ :: _) as g) => false
              | _ => true
              end = true)
    by (destruct (group m 1) as [[|c g]|]; simpl in T; congruence).
  destruct (group m 1) as [[|c g]|]; try discriminate;
    unfold splice, match_start, len; rewrite EM, !length_app;
    (replace (Z.of_nat (List.length P + List.length X)
              - (Z.of_nat (List.length X + List.length typed)
                 - Z.of_nat (List.length typed)))
       with (Z.of_nat (List.length P)) by lia);
    rewrite !Nat2Z.id, <- (app_assoc P X after_);
    rewrite (firstn_within_app P (X ++ after_) (Nat.le_refl _));
    rewrite firstn_all, (app_assoc P X after_);
    rewrite <- (length_app P X), skipn_length_app; reflexivity.
Qed.

(** X2: a string rule at a caret, when group 1 of the match is the
    non-empty text [G], last at index [off] of the match.  With the block
    and the match as in X1, the edit of the handler turns the text of the
    block into [P], the match up to the group, the replacement, the match
    after the group, [after_]: the group is what is replaced, whether it
    starts in the text before the caret or in the typed text. *)
Theorem stringHandler_caret_group (R P X typed after_ G : jsstring)
    (m : RegExpMatch) (off : nat) :
  matched m = X ++ typed ->
  group m 1 = Some G -> G <> [] ->
  last_occurrence (matched m) G off ->
  splice ((P ++ X) ++ after_)
         (stringHandler_edit R m (match_start (len (P ++ X)) typed m)
                             (len (P ++ X)))
  = P ++ firstn off (matched m) ++ R
    ++ skipn (off + List.length G) (matched m) ++ after_.
Proof.
  intros EM HG Hne Hlast.
  pose proof (last_occurrence_lastIndexOf Hne Hlast) as EL.
  pose proof (occurs_at_bound Hne (proj1 Hlast)) as B.
  unfold stringHandler_edit. rewrite HG.
  destruct G as [|c G]; [contradiction|]. cbv beta iota zeta. rewrite EL.
  replace (Z.of_nat off + len (c :: G))
    with (Z.of_nat (off + List.length (c :: G))) by (unfold len; lia).
  rewrite sliceFrom_inside by exact B.
  unfold match_start, len. rewrite EM, !length_app.
  replace (Z.of_nat (List.length P + List.length X)
           - (Z.of_nat (List.length X + List.length typed)
              - Z.of_nat (List.length typed)))
    with (Z.of_nat (List.length P)) by lia.
  rewrite EM, length_app in B.
  destruct (0 <? Z.of_nat (List.length P) + Z.of_nat off
                 - Z.of_nat (List.length P + List.length X)) eqn:C.
  - apply Z.ltb_lt in C.
    replace (Z.of_nat off
             - (Z.of_nat (List.length P) + Z.of_nat off
                - Z.of_nat (List.length P + List.length X)))
      with (Z.of_nat (List.length X)) by lia.
    rewrite slice_inside by (rewrite length_app; lia).
    unfold splice. rewrite Nat2Z.id, <- (length_app P X).
    rewrite (firstn_within_app (P ++ X) after_ (Nat.le_refl _)), firstn_all.
    rewrite skipn_length_app, skipn_length_app.
    assert (F : firstn off (X ++ typed)
                = X ++ firstn (off - List.length X) typed).
    { replace off with (List.length X + (off - List.length X))%nat at 1
        by lia.
      apply firstn_plus_app. }
    rewrite F, <- !app_assoc. reflexivity.
  - apply Z.ltb_ge in C. unfold splice.
    replace (Z.of_nat (List.length P) + Z.of_nat off)
      with (Z.of_nat (List.length P + off)) by lia.
    rewrite !Nat2Z.id, <- (length_app P X), skipn_length_app.
    rewrite <- (app_assoc P X after_), firstn_plus_app.
    rewrite (firstn_within_app X after_) by lia.
    rewrite (firstn_within_app X typed) by lia.
    rewrite <- !app_assoc. reflexivity.
Qed.

(* ================================================================== *)
(** * More on [run] *)
(* ================================================================== *)

Lemma stringHandler_edit_end (R : jsstring) (m : RegExpMatch)
    (start end_ : Z) :
  snd (stringHandler_edit R m start end_) = end_.
Proof.
  unfold stringHandler_edit.
  destruct (group m 1) as [[|c g]|]; try reflexivity.
  cbv beta iota zeta.
  destruct (0 <? start + lastIndexOf (matched m) (c :: g) - end_);
    reflexivity.
Qed.

Section RunMore.

Context {H : Host}.

Variables (from to : Z) (text : jsstring) (plugin : Plugin) (w : World).

Lemma tries_events_app (tb : jsstring) (i : nat) (a b : list InputRule) :
  tries_events from to text tb i (a ++ b)
  = tries_events from to text tb i a
    ++ tries_events from to text tb (i + List.length a) b.
Proof.
  revert i. induction a as [|r a IH]; intros i;
    cbn [tries_events app List.length].
  - rewrite Nat.add_0_r. reflexivity.
  - rewrite IH, <- app_assoc, Nat.add_succ_r. reflexivity.
Qed.

Lemma tries_events_handler (tb : jsstring) (rules : list InputRule)
    (k i : nat) (m : RegExpMatch) (s e : Z) :
  In (EvHandler i m s e) (tries_events from to text tb k rules) ->
  (k <= i)%nat /\
  exists rule, nth_error rules (i - k) = Some rule /\
               rule_match rule tb = Some m /\
               s = match_start from text m /\ e = to.
Proof.
  revert k. induction rules as [|r rules IH]; intros k;
    cbn [tries_events]; [contradiction|].
  intros I. apply in_app_or in I. destruct I as [I | I].
  - unfold try_events in I. destruct I as [I | I]; [discriminate|].
    destruct (rule_match r tb) as [m'|] eqn:M; [|contradiction].
    destruct I as [I | []]. injection I as <- <- <- <-.
    split; [lia|]. exists r. rewrite Nat.sub_diag. auto.
  - apply IH in I. destruct I as [L [rule [N F]]]. split; [lia|].
    exists rule. split; [|exact F].
    replace (i - k)%nat with (S (i - S k)) by lia. exact N.
Qed.

Lemma handler_of_tried (tb : jsstring) (rules pre rest : list InputRule)
    (rule : InputRule) (i : nat) (m : RegExpMatch) (s e : Z) :
  rules = pre ++ rule :: rest ->
  In (EvHandler i m s e)
     (tries_events from to text tb 0 pre
      ++ try_events from to text tb (List.length pre) rule) ->
  exists r,
    nth_error rules i = Some r /\
    rule_match r tb = Some m /\
    s = from - (len (matched m) - len text) /\ e = to.
Proof.
  intros S I.
  assert (I' : In (EvHandler i m s e)
                  (tries_events from to text tb 0 (pre ++ [rule]))).
  { rewrite tries_events_app. cbn [tries_events Nat.add].
    rewrite app_nil_r. exact I. }
  apply tries_events_handler in I'. destruct I' as [_ [r [N F]]].
  rewrite Nat.sub_0_r in N. exists r. split; [|exact F].
  subst rules.
  assert (Li : (i < List.length (pre ++ [rule]))%nat)
    by (apply nth_error_Some; congruence).
  rewrite length_app in Li. cbn in Li.
  destruct (Nat.lt_ge_cases i (List.length pre)) as [Lt | Ge].
  - rewrite nth_error_app1 in N |- * by exact Lt. exact N.
  - assert (i = List.length pre) by lia. subst i.
    rewrite nth_error_app2 in N |- * by lia.
    rewrite Nat.sub_diag in N |- *. exact N.
Qed.

(** X3: a string rule never declines.  When the rules before it have
    declined and its pattern matches, [run] calls [insertText] on
    [state.tr], whatever the groups of the match are and whatever rules
    follow, over a range that ends at [to]; when group 1 is empty or absent
    the text is the replacement and the range starts at
    [from - (match[0].length - text.length)].  When [insertText] gives a
    transaction, [run] applies it; when it raises, [run] ends with the
    error and dispatches nothing.  No later rule is tried. *)
Theorem run_string_rule (pre : list InputRule) (re : RegExp)
    (R : jsstring) (rest : list InputRule) (m : RegExpMatch) :
  guarded (w_view w) from = false ->
  let state := view_state (w_view w) in
  let textBefore := textBefore_of state from text in
  Forall (fun r => answer state from to text textBefore r = Normal None)
         pre ->
  re textBefore = Some m ->
  exists insert start',
    stringHandler_edit R m (match_start from text m) to
    = (insert, start', to) /\
    (truthy (group m 1) = false ->
     insert = R /\ start' = match_start from text m) /\
    run from to text (pre ++ newInputRule re (HString R) :: rest) plugin w
    = match insertText (state_tr state) insert start' to with
      | Normal tr =>
          (Normal true,
           applied from to text plugin w
             (tries_events from to text textBefore 0 pre
              ++ [EvExec (List.length pre) textBefore;
                  EvHandler (List.length pre) m
                            (match_start from text m) to])
             tr)
      | Throw =>
          (Throw,
           log w (tries_events from to text textBefore 0 pre
                  ++ [EvExec (List.length pre) textBefore;
                      EvHandler (List.length pre) m
                                (match_start from text m) to]))
      end.
Proof.
  intros G state textBefore D M.
  destruct (stringHandler_edit R m (match_start from text m) to)
    as [[insert start'] end'] eqn:E.
  pose proof (stringHandler_edit_end R m (match_start from text m) to) as Ee.
  rewrite E in Ee. cbn [snd] in Ee. subst end'.
  exists insert, start'. split; [reflexivity|]. split.
  - intros T. unfold stringHandler_edit in E.
    destruct (group m 1) as [[|c g]|]; simpl in T; try discriminate;
      injection E as <- <-; split; reflexivity.
  - assert (A : answer state from to text textBefore
                       (newInputRule re (HString R))
                = cmap Some (insertText (state_tr state) insert start' to)).
    { unfold answer. cbn [newInputRule rule_match rule_handler].
      rewrite M. unfold stringHandler. rewrite E. reflexivity. }
    rewrite (run_unguarded from to text plugin w _ G).
    fold state. fold textBefore.
    rewrite (run_rules_skip state from to text textBefore plugin
               (newInputRule re (HString R) :: rest) 0 w D).
    assert (T : try_events from to text textBefore (0 + List.length pre)
                           (newInputRule re (HString R))
                = [EvExec (List.length pre) textBefore;
                   EvHandler (List.length pre) m
                             (match_start from text m) to]).
    { unfold try_events. cbn [newInputRule rule_match]. rewrite M.
      reflexivity. }
    destruct (insertText (state_tr state) insert start' to) as [tr|];
      cbn [cmap] in A.
    + rewrite (@run_rules_answers _ state from to text textBefore plugin
                 _ _ rest _ _ A).
      rewrite applied_log, T. reflexivity.
    + rewrite (@run_rules_throws _ state from to text textBefore plugin
                 _ _ rest _ A).
      rewrite log_log, T. reflexivity.
Qed.

(** X4: every call of a handler that [run] makes is the call of the
    handler of a rule of the list, on the match that the pattern of that
    rule gave on the window, with the start
    [from - (match[0].length - text.length)] and the end [to]: no handler
    is called without a match of its own pattern. *)
Theorem run_handler_calls (rules : list InputRule) :
  let state := view_state (w_view w) in
  let textBefore := textBefore_of state from text in
  exists evs,
    w_events (snd (run from to text rules plugin w)) = w_events w ++ evs /\
    forall i m s e,
      In (EvHandler i m s e) evs ->
      exists rule,
        nth_error rules i = Some rule /\
        rule_match rule textBefore = Some m /\
        s = from - (len (matched m) - len text) /\ e = to.
Proof.
  intros state textBefore.
  destruct (guarded (w_view w) from) eqn:G.
  - rewrite (run_guarded from to text plugin w rules G).
    exists []. split; [cbn; rewrite app_nil_r; reflexivity|].
    intros i m s e [].
  - rewrite (run_unguarded from to text plugin w rules G).
    fold state. fold textBefore.
    destruct (run_rules_outcome state from to text textBefore plugin
                rules 0 w)
      as [[_ E] | [[pre [rule [rest [tr [S [_ [_ E]]]]]]]
                  | [pre [rule [rest [S [_ [_ E]]]]]]]];
      rewrite E; cbn [snd log applied w_events]; eexists;
      (split; [reflexivity|]); intros i m s e I.
    + apply tries_events_handler in I. destruct I as [_ [r [N F]]].
      rewrite Nat.sub_0_r in N. exists r. split; [exact N | exact F].
    + apply in_app_or in I. destruct I as [I | [I | []]]; [|discriminate].
      eapply handler_of_tried; eassumption.
    + eapply handler_of_tried; eassumption.
Qed.

(** X6: two lists of rules, one after the other.  When no guard holds,
    [run] on [a ++ b] is [run] on [a] when that handles the event or
    raises; when it does not, it is the loop on [b], numbered after [a],
    from the world [run] on [a] has left. *)
Theorem run_app (a b : list InputRule) :
  guarded (w_view w) from = false ->
  let state := view_state (w_view w) in
  let textBefore := textBefore_of state from text in
  run from to text (a ++ b) plugin w
  = match fst (run from to text a plugin w) with
    | Normal false =>
        run_rules (List.length a) b state from to text textBefore plugin
                  (snd (run from to text a plugin w))
    | _ => run from to text a plugin w
    end.
Proof.
  intros G state textBefore.
  rewrite !(run_unguarded from to text plugin w _ G).
  fold state. fold textBefore.
  destruct (run_rules_outcome state from to text textBefore plugin a 0 w)
    as [[D E] | [[pre [rule [rest [tr [S [D [A E]]]]]]]
                | [pre [rule [rest [S [D [A E]]]]]]]].
  - rewrite E. cbn [fst snd].
    exact (run_rules_skip state from to text textBefore plugin b 0 w D).
  - rewrite E. cbn [fst]. rewrite <- E. subst a.
    rewrite <- app_assoc. cbn [app].
    rewrite !(run_rules_skip state from to text textBefore plugin _ 0 w D).
    rewrite !(@run_rules_answers _ state from to text textBefore plugin
                _ rule _ _ tr A).
    reflexivity.
  - rewrite E. cbn [fst]. rewrite <- E. subst a.
    rewrite <- app_assoc. cbn [app].
    rewrite !(run_rules_skip state from to text textBefore plugin _ 0 w D).
    rewrite !(@run_rules_throws _ state from to text textBefore plugin
                _ rule _ _ A).
    reflexivity.
Qed.

End RunMore.

Section StartBound.

Context {H : Host} {L : HostLaws H}.

(** X5: the start of the range a handler is given is never more than 500
    positions before [from], nor more than the offset of [from] in its
    parent, for a match that is not longer than the text it was found
    in. *)
Theorem run_match_start_bound (state : EditorState) (from : Z)
    (text : jsstring) (m : RegExpMatch) :
  len (matched m) <= len (textBefore_of state from text) ->
  from - Z.max 0 (Z.min (parentOffset (resolve (state_doc state) from)) 500)
  <= match_start from text m.
Proof.
  unfold textBefore_of, match_start, len, MAX_MATCH. rewrite length_app.
  pose proof (textBetween_length
                (parent (resolve (state_doc state) from))
                (Z.max 0 (parentOffset (resolve (state_doc state) from) - 500))
                (parentOffset (resolve (state_doc state) from)) 65532%N) as B.
  revert B.
  generalize (parentOffset (resolve (state_doc state) from)).
  intros po B Lm.
  match type of B with
  | (?n <= _)%nat =>
      match type of Lm with
      | context [(?n' + _)%nat] => change n' with n in Lm
      end;
      generalize dependent n
  end.
  intros n B Lm. lia.
Qed.

End StartBound.

(* ================================================================== *)
(** * The end of a composition *)
(* ================================================================== *)

Section Composition.

Context {H : Host}.

(** X7: the task [compositionend] schedules.  Without a cursor it does
    nothing.  With a cursor at [pos] it is [run] at [pos, pos) with no
    text, whose result it drops and whose error, if any, it lets through:
    the patterns see the text before the cursor with nothing after it, a
    match starts at [pos - match[0].length], and when a rule is applied the
    record it leaves has [from = to = pos] and the empty text. *)
Theorem compositionend_later_outcome (rules : list InputRule)
    (plugin : Plugin) (w : World) :
  let st := view_state (w_view w) in
  match cursor st with
  | None => compositionend_later rules plugin w = (Normal tt, w)
  | Some pos =>
      compositionend_later rules plugin w
      = (cmap (fun _ => tt) (fst (run pos pos [] rules plugin w)),
         snd (run pos pos [] rules plugin w)) /\
      textBefore_of st pos []
      = textBetween (parent (resolve (state_doc st) pos))
                    (Z.max 0 (parentOffset (resolve (state_doc st) pos) - 500))
                    (parentOffset (resolve (state_doc st) pos))
                    None [65532%N] /\
      (forall m, match_start pos [] m = pos - len (matched m)) /\
      (fst (run pos pos [] rules plugin w) = Normal true ->
       exists rule tr,
         In rule rules /\
         answer st pos pos [] (textBefore_of st pos []) rule
         = Normal (Some tr) /\
         w_view (snd (compositionend_later rules plugin w))
         = view_dispatch (w_view w)
             (setMeta tr plugin (Build_Undoable tr pos pos [])))
  end.
Proof.
  intros st. unfold compositionend_later. cbv [bind view ret].
  fold st. destruct (cursor st) as [pos|]; [|reflexivity].
  assert (E : match run pos pos [] rules plugin w with
              | (Normal _, w') => (Normal tt, w')
              | (Throw, w') => (Throw, w')
              end
              = (cmap (fun _ => tt) (fst (run pos pos [] rules plugin w)),
                 snd (run pos pos [] rules plugin w)))
    by (destruct (run pos pos [] rules plugin w) as [[b|] w'];
        reflexivity).
  split; [exact E|].
  split; [unfold textBefore_of; apply app_nil_r|].
  split; [intros m; unfold match_start, len; cbn [List.length]; lia|].
  intros F. rewrite E. cbn [snd].
  destruct (guarded (w_view w) pos) eqn:G.
  - rewrite (run_guarded pos pos [] plugin w rules G) in F. discriminate.
  - rewrite (run_unguarded pos pos [] plugin w rules G) in F |- *.
    fold st in F |- *.
    destruct (run_rules_outcome st pos pos [] (textBefore_of st pos [])
                plugin rules 0 w)
      as [[_ R] | [[pre [rule [rest [tr [S [_ [A R]]]]]]]
                  | [pre [rule [rest [S [_ [A R]]]]]]]];
      rewrite R in F |- *; try discriminate.
    exists rule, tr. split; [|split; [exact A | reflexivity]].
    subst rules. apply in_or_app. right. left. reflexivity.
Qed.

End Composition.

(* ================================================================== *)
(** * More on the plugin state and on [undoInputRule] *)
(* ================================================================== *)

Section UndoMore.

Context {H : Host}.

Lemma apply_some (this : Plugin) (tr : Transaction)
    (prev : option (Undoable Transaction)) (u : Undoable Transaction) :
  apply this tr prev = Some u <->
  getMeta tr this = Some u \/ (quiet this tr /\ prev = Some u).
Proof.
  unfold apply, quiet. destruct (getMeta tr this) as [stored|].
  - split; [intros E; left; exact E|].
    intros [E | [[E _] _]]; [exact E | discriminate].
  - destruct (selectionSet tr); cbn [orb].
    + split; [discriminate|]. intros [E | [[_ [E _]] _]]; discriminate.
    + destruct (docChanged tr).
      * split; [discriminate|]. intros [E | [[_ [_ E]] _]]; discriminate.
      * split; [intros E; right; auto|]. intros [E | [_ E]];
          [discriminate | exact E].
Qed.

(** X10: the record the plugin holds after a sequence of updates.  It
    holds [u] exactly when some update carried [u] as metadata for the
    plugin and every later update carried none and changed neither the
    selection nor the document, or when it held [u] at the start and every
    update was of that kind. *)
Theorem field_after_some (this : Plugin) (trs : list Transaction)
    (prev : option (Undoable Transaction)) (u : Undoable Transaction) :
  field_after this trs prev = Some u <->
  (exists before tr after,
     trs = before ++ tr :: after /\ getMeta tr this = Some u /\
     Forall (quiet this) after)
  \/ (prev = Some u /\ Forall (quiet this) trs).
Proof.
  revert prev. induction trs as [|t trs IH]; intros prev.
  - cbn. split.
    + intros E. right. split; [exact E | constructor].
    + intros [[[|? ?] [tr [after [E _]]]] | [E _]];
        [discriminate | discriminate | exact E].
  - change (field_after this (t :: trs) prev)
      with (field_after this trs (apply this t prev)).
    rewrite IH, apply_some. split.
    + intros [[before [tr [after [E [M Q]]]]] | [[M | [Qt P]] Q]].
      * left. exists (t :: before), tr, after. subst trs. auto.
      * left. exists [], t, trs. auto.
      * right. split; [exact P | constructor; assumption].
    + intros [[[|t' before] [tr [after [E [M Q]]]]] | [P Q]].
      * injection E as <- <-. right. auto.
      * injection E as <- ->. left. exists before, tr, after. auto.
      * inversion Q; subst. right. auto.
Qed.

Lemma find_undoable_first (st : EditorState) (pre : list Plugin)
    (p : Plugin) (rest : list Plugin) (u : Undoable Transaction) :
  Forall (fun q => undoable_of st q = None) pre ->
  undoable_of st p = Some u ->
  find_undoable st (pre ++ p :: rest) = Some u.
Proof.
  intros D F. induction pre as [|q pre IH]; cbn [app find_undoable].
  - rewrite F. reflexivity.
  - inversion D as [|? ? Dq Dpre]; subst. rewrite Dq. exact (IH Dpre).
Qed.

(** X8: without a dispatch callback [undoInputRule] only reports: its
    result tells whether an input rules plugin holds a record, and the
    world is the one before the call. *)
Theorem undoInputRule_probe (st : EditorState) (w : World) :
  undoInputRule st None w = (Normal (has_undoable st), w).
Proof.
  unfold undoInputRule, has_undoable.
  rewrite undo_plugins_outcome, <- find_undoable_some.
  destruct (find_undoable st (state_plugins st)); reflexivity.
Qed.

(** X16: [undoInputRule] returns [false] exactly when no input rules
    plugin of the state holds a record, with or without a callback, and
    then the world is the one before the call: the callback has not been
    called. *)
Theorem undoInputRule_no_record (st : EditorState)
    (dispatch : option (Transaction -> Eff bool)) (w : World) :
  has_undoable st = false <->
  undoInputRule st dispatch w = (Normal false, w).
Proof.
  unfold undoInputRule, has_undoable.
  rewrite undo_plugins_outcome, <- find_undoable_some.
  destruct (find_undoable st (state_plugins st)) as [u|].
  - split; [discriminate|].
    destruct dispatch as [callback|]; [|discriminate].
    destruct (undo_transaction st u) as [tr|]; [|discriminate].
    destruct (callback tr w) as [[b|] w']; discriminate.
  - split; reflexivity.
Qed.

(** X9: among several input rules plugins the first one, in the order of
    [state.plugins], that holds a record is the one undone, whatever the
    plugins after it hold: when the typed text of that record is not empty,
    the callback is called once, on the transaction that undoes that
    record, and the result is [true] unless the callback raises; when it is
    empty, [undoInputRule] raises before it calls the callback. *)
Theorem undoInputRule_first {S : SchemaLaws H} (st : EditorState)
    (pre : list Plugin) (p : Plugin) (rest : list Plugin)
    (u : Undoable Transaction) (callback : Transaction -> Eff bool)
    (w : World) :
  state_plugins st = pre ++ p :: rest ->
  Forall (fun q => isInputRules q = false \/ getState q st = None) pre ->
  isInputRules p = true -> getState p st = Some u ->
  (text u <> [] ->
   exists tr,
     undo_transaction st u = Normal tr /\
     undoInputRule st (Some callback) w
     = (cmap (fun _ => true) (fst (callback tr w)), snd (callback tr w))) /\
  (text u = [] -> undoInputRule st (Some callback) w = (Throw, w)).
Proof.
  intros Sp D I G.
  assert (F : find_undoable st (state_plugins st) = Some u).
  { rewrite Sp. apply find_undoable_first.
    - eapply Forall_impl; [|exact D]. intros q [E | E]; unfold undoable_of.
      + rewrite E. reflexivity.
      + rewrite E. destruct (isInputRules q); reflexivity.
    - unfold undoable_of. rewrite I. exact G. }
  unfold undoInputRule. rewrite undo_plugins_outcome, F. split.
  - intros N. destruct (undo_transaction_node st u N) as [tr E].
    exists tr. rewrite E. split; reflexivity.
  - intros E. rewrite (undo_transaction_empty st u E). reflexivity.
Qed.

Context {L : HostLaws H} {S : SchemaLaws H}.

(** X15: in a state whose first record of an input rules plugin is
    [{transform, from, to, text}] with a typed text that is not empty, and
    whose document is the one the recorded transform ended on,
    [undoInputRule] with a dispatch callback calls the callback once, on
    the transaction that applies to [state.tr] the inverse of each recorded
    step against the document saved for that step, last step first, which
    brings the document back to [d0], the one before the rule, and then
    replaces [from, to) with the text node of [text] with the marks at
    [from] in [d0]: the document it produces is the one that replacing
    [from, to) by the typed text gives before the rule. *)
Theorem undoInputRule_restores (st : EditorState)
    (u : Undoable Transaction) (d0 : Node)
    (callback : Transaction -> Eff bool) (w : World) :
  find_undoable st (state_plugins st) = Some u ->
  history d0 (tr_steps (transform u)) (tr_docs (transform u)) (state_doc st) ->
  text u <> [] ->
  let restored :=
    fold_left tr_step
              (inverses (tr_steps (transform u)) (tr_docs (transform u)))
              (state_tr st) in
  exists typed,
    schema_text (text u) (marks (resolve d0 (from u))) = Normal typed /\
    undoInputRule st (Some callback) w
    = (cmap (fun _ => true)
            (fst (callback (replaceWith restored (from u) (to u) typed) w)),
       snd (callback (replaceWith restored (from u) (to u) typed) w)) /\
    tr_doc restored = d0 /\
    forall st0, state_doc st0 = d0 ->
      tr_doc (replaceWith restored (from u) (to u) typed)
      = tr_doc (replaceWith (state_tr st0) (from u) (to u) typed).
Proof.
  intros F Hh N restored.
  destruct (@schema_text_node _ _ (text u) (marks (resolve d0 (from u))) N)
    as [typed T].
  destruct (@undo_transaction_restores _ _ st u d0 typed Hh T) as [Dd U].
  fold restored in Dd, U.
  exists typed. split; [exact T|]. split; [|split; [exact Dd|]].
  - unfold undoInputRule. rewrite undo_plugins_outcome, F, U. reflexivity.
  - intros st0 E0. apply replaceWith_doc.
    rewrite Dd, state_tr_doc. symmetry. exact E0.
Qed.

End UndoMore.

(* ================================================================== *)
(** * [run], the dispatch of the view, and [undoInputRule] *)
(* ================================================================== *)

Section Dispatching.

Context {H : Host} {D : DispatchLaws H}.

Lemma run_handled_view (from to : Z) (text : jsstring)
    (rules : list InputRule) (plugin : Plugin) (w : World) :
  fst (run from to text rules plugin w) = Normal true ->
  exists rule tr,
    In rule rules /\
    answer (view_state (w_view w)) from to text
           (textBefore_of (view_state (w_view w)) from text) rule
    = Normal (Some tr) /\
    w_view (snd (run from to text rules plugin w))
    = view_dispatch (w_view w) (tagged from to text plugin tr).
Proof.
  intros F. destruct (guarded (w_view w) from) eqn:G.
  - rewrite (run_guarded from to text plugin w rules G) in F. discriminate.
  - rewrite (run_unguarded from to text plugin w rules G) in F |- *.
    destruct (run_rules_outcome (view_state (w_view w)) from to text
                (textBefore_of (view_state (w_view w)) from text)
                plugin rules 0 w)
      as [[_ R] | [[pre [rule [rest [tr [S [_ [A R]]]]]]]
                  | [pre [rule [rest [S [_ [A R]]]]]]]];
      rewrite R in F |- *; try discriminate.
    exists rule, tr. split; [|split; [exact A | reflexivity]].
    subst rules. apply in_or_app. right. left. reflexivity.
Qed.

Lemma has_undoable_in (st : EditorState) (p : Plugin)
    (u : Undoable Transaction) :
  In p (state_plugins st) -> isInputRules p = true ->
  getState p st = Some u -> has_undoable st = true.
Proof.
  intros I P G. unfold has_undoable. apply existsb_exists.
  exists p. split; [exact I|]. rewrite P, G. reflexivity.
Qed.

Lemma find_undoable_only (st : EditorState) (ps : list Plugin)
    (plugin : Plugin) (u : Undoable Transaction) :
  (forall p, In p ps -> isInputRules p = true -> p = plugin) ->
  In plugin ps -> isInputRules plugin = true ->
  getState plugin st = Some u ->
  find_undoable st ps = Some u.
Proof.
  intros O I P G. induction ps as [|q ps IH]; [contradiction|].
  cbn [find_undoable]. unfold undoable_of at 1.
  destruct (isInputRules q) eqn:Q.
  - rewrite (O q (or_introl eq_refl) Q), G. reflexivity.
  - apply IH.
    + intros p Ip. apply O. right. exact Ip.
    + destruct I as [-> | I]; [congruence | exact I].
Qed.

Lemma find_undoable_none (st : EditorState) (ps : list Plugin) :
  Forall (fun p => undoable_of st p = None) ps ->
  find_undoable st ps = None.
Proof.
  induction 1 as [|p ps E _ IH]; cbn [find_undoable];
    [reflexivity | rewrite E; exact IH].
Qed.

Lemma undo_transaction_built (st : EditorState) (tr : Transaction)
    (a b : Z) (x : jsstring) :
  undo_transaction st (Build_Undoable tr a b x)
  = cmap (replaceWith
            (invert_steps (tr_steps tr) (tr_docs tr)
                          (List.length (tr_steps tr)) (state_tr st))
            a b)
         (schema_text x
            (marks (resolve
                      (tr_doc (invert_steps (tr_steps tr) (tr_docs tr)
                                 (List.length (tr_steps tr)) (state_tr st)))
                      a))).
Proof. reflexivity. Qed.

Variables (from to : Z) (text : jsstring) (rules : list InputRule)
          (plugin : Plugin) (w : World).

(** What the state of the view is after [run] has handled an event, in a
    view whose state has the plugin. *)
Lemma run_handled_state :
  fst (run from to text rules plugin w) = Normal true ->
  In plugin (state_plugins (view_state (w_view w))) ->
  isInputRules plugin = true ->
  let st := view_state (w_view w) in
  let st' := view_state (w_view (snd (run from to text rules plugin w))) in
  exists rule tr,
    In rule rules /\
    answer st from to text (textBefore_of st from text) rule
    = Normal (Some tr) /\
    getState plugin st' = Some (Build_Undoable tr from to text) /\
    state_doc st' = tr_doc tr /\
    state_plugins st' = state_plugins st.
Proof.
  intros F I P st st'.
  destruct (run_handled_view from to text rules plugin w F)
    as [rule [tr [Ir [A V]]]].
  exists rule, tr. split; [exact Ir|]. split; [exact A|]. subst st'.
  rewrite V. split; [|split].
  - rewrite (dispatch_field _ _ _ I P).
    unfold apply, tagged. rewrite setMeta_getMeta. reflexivity.
  - rewrite dispatch_doc. apply setMeta_doc.
  - apply dispatch_plugins.
Qed.

(** X11: after [run] has handled an event, in a view whose state has the
    plugin, the state of the view holds for the plugin the record of the
    rule's transaction with the [from], [to] and [text] of the event, its
    document is the one of that transaction, and [undoInputRule] on it
    returns [true] without a callback and never returns [false] with
    one. *)
Theorem run_then_undo_available :
  fst (run from to text rules plugin w) = Normal true ->
  In plugin (state_plugins (view_state (w_view w))) ->
  isInputRules plugin = true ->
  let st' := view_state (w_view (snd (run from to text rules plugin w))) in
  (exists tr,
     getState plugin st' = Some (Build_Undoable tr from to text) /\
     state_doc st' = tr_doc tr) /\
  (forall w2, undoInputRule st' None w2 = (Normal true, w2)) /\
  (forall callback w2,
     fst (undoInputRule st' (Some callback) w2) <> Normal false).
Proof.
  intros F I P st'.
  destruct (run_handled_state F I P) as [rule [tr [_ [_ [G [Ed Ep]]]]]].
  fold st' in G, Ed, Ep.
  assert (U : exists u, find_undoable st' (state_plugins st') = Some u).
  { assert (U : has_undoable st' = true).
    { eapply has_undoable_in; [|exact P|exact G]. rewrite Ep. exact I. }
    unfold has_undoable in U. rewrite <- find_undoable_some in U.
    destruct (find_undoable st' (state_plugins st')) as [u|];
      [exists u; reflexivity | discriminate]. }
  destruct U as [u U].
  split; [exists tr; split; assumption|]. split.
  - intros w2. unfold undoInputRule.
    rewrite undo_plugins_outcome, U. reflexivity.
  - intros callback w2. unfold undoInputRule.
    rewrite undo_plugins_outcome, U.
    destruct (undo_transaction st' u) as [t|]; [|discriminate].
    destruct (callback t w2) as [[b|] w']; discriminate.
Qed.

(** X13: after the view has dispatched a transaction that carries no
    record for any input rules plugin of its state and that sets the
    selection or changes the document, [undoInputRule] returns [false] and
    does nothing, whatever the plugins held before. *)
Theorem edit_then_undo_unavailable (v : EditorView) (tr : Transaction)
    (dispatch : option (Transaction -> Eff bool)) (w2 : World) :
  (forall p, In p (state_plugins (view_state v)) ->
             isInputRules p = true -> getMeta tr p = None) ->
  selectionSet tr = true \/ docChanged tr = true ->
  undoInputRule (view_state (view_dispatch v tr)) dispatch w2
  = (Normal false, w2).
Proof.
  intros M C. unfold undoInputRule.
  rewrite undo_plugins_outcome, find_undoable_none; [reflexivity|].
  rewrite dispatch_plugins. apply Forall_forall. intros p I.
  unfold undoable_of. destruct (isInputRules p) eqn:P; [|reflexivity].
  rewrite (dispatch_field _ _ _ I P). unfold apply. rewrite (M p I P).
  destruct C as [-> | ->]; [reflexivity | rewrite orb_true_r; reflexivity].
Qed.

Context {S : SchemaLaws H}.

(** X17: a rule applied on an event with no text, as at the end of a
    composition, cannot be undone.  When [run] has handled an event whose
    text is empty, in a view whose only input rules plugin is the plugin,
    [undoInputRule] with a callback on the new state raises and does not
    call the callback, while without a callback it returns [true]. *)
Theorem run_no_text_then_undo_raises (callback : Transaction -> Eff bool)
    (w2 : World) :
  let st := view_state (w_view w) in
  text = [] ->
  fst (run from to text rules plugin w) = Normal true ->
  (forall p, In p (state_plugins st) -> isInputRules p = true ->
             p = plugin) ->
  In plugin (state_plugins st) -> isInputRules plugin = true ->
  let st' := view_state (w_view (snd (run from to text rules plugin w))) in
  undoInputRule st' None w2 = (Normal true, w2) /\
  undoInputRule st' (Some callback) w2 = (Throw, w2).
Proof.
  intros st T F O I P st'.
  destruct (run_handled_state F I P) as [rule [tr [_ [_ [G [Ed Ep]]]]]].
  fold st' in G, Ed, Ep. fold st in Ep.
  assert (U : find_undoable st' (state_plugins st')
              = Some (Build_Undoable tr from to text)).
  { apply (@find_undoable_only st' (state_plugins st') plugin);
      [rewrite Ep; exact O | rewrite Ep; exact I | exact P | exact G]. }
  unfold undoInputRule. rewrite !undo_plugins_outcome, U.
  split; [reflexivity|].
  rewrite undo_transaction_built, T, schema_text_empty. reflexivity.
Qed.

Context {L : HostLaws H}.

(** X12: a rule applied and undone at once.  When [run] has handled an
    event whose text is not empty, in a view whose only input rules plugin
    is the plugin, and the transactions of the handlers are transforms of
    the document of the state, [undoInputRule] on the new state calls the
    callback once, on a transaction whose document is the one that
    replacing [from, to) by the typed text, with the marks at [from], gives
    on the document before the event; its result is [true] unless the
    callback raises. *)
Theorem run_then_undo_restores (callback : Transaction -> Eff bool)
    (w2 : World) :
  let st := view_state (w_view w) in
  text <> [] ->
  fst (run from to text rules plugin w) = Normal true ->
  (forall p, In p (state_plugins st) -> isInputRules p = true ->
             p = plugin) ->
  In plugin (state_plugins st) -> isInputRules plugin = true ->
  (forall rule tr,
     In rule rules ->
     answer st from to text (textBefore_of st from text) rule
     = Normal (Some tr) ->
     history (state_doc st) (tr_steps tr) (tr_docs tr) (tr_doc tr)) ->
  let st' := view_state (w_view (snd (run from to text rules plugin w))) in
  exists undo typed,
    schema_text text (marks (resolve (state_doc st) from)) = Normal typed /\
    undoInputRule st' (Some callback) w2
    = (cmap (fun _ => true) (fst (callback undo w2)),
       snd (callback undo w2)) /\
    tr_doc undo = tr_doc (replaceWith (state_tr st) from to typed).
Proof.
  intros st T F O I P Hh st'.
  destruct (run_handled_state F I P) as [rule [tr [Ir [A [G [Ed Ep]]]]]].
  fold st' in G, Ed, Ep. fold st in A, Ep. specialize (Hh rule tr Ir A).
  assert (U : find_undoable st' (state_plugins st')
              = Some (Build_Undoable tr from to text)).
  { apply (@find_undoable_only st' (state_plugins st') plugin);
      [rewrite Ep; exact O | rewrite Ep; exact I | exact P | exact G]. }
  destruct (@schema_text_node _ _ text (marks (resolve (state_doc st) from)) T)
    as [typed Et].
  assert (Dd : tr_doc (fold_left tr_step
                         (inverses (tr_steps tr) (tr_docs tr))
                         (state_tr st'))
               = state_doc st).
  { eapply inverses_doc; [exact Hh|]. rewrite state_tr_doc. exact Ed. }
  assert (B : undo_transaction st' (Build_Undoable tr from to text)
              = Normal (replaceWith
                          (fold_left tr_step
                             (inverses (tr_steps tr) (tr_docs tr))
                             (state_tr st'))
                          from to typed)).
  { rewrite undo_transaction_built.
    rewrite invert_steps_inverses by (eapply history_length; exact Hh).
    rewrite Dd, Et. reflexivity. }
  eexists _, typed. split; [exact Et|]. split.
  - unfold undoInputRule. rewrite undo_plugins_outcome, U, B. reflexivity.
  - apply replaceWith_doc. rewrite Dd, state_tr_doc. reflexivity.
Qed.

End Dispatching.

(* ================================================================== *)
(** * The second small editor keeps the laws *)
(* ================================================================== *)

Module Toy2Laws.
Import Toy.

Lemma apply_key (p q : TPlugin) (tr : TTr) (prev : option (Undoable TTr)) :
  p_key q = p_key p -> @apply Toy.host q tr prev = @apply Toy.host p tr prev.
Proof. intros E. unfold apply. cbn. rewrite E. reflexivity. Qed.

Lemma lookup_fields_after (ps : list TPlugin) (tr : TTr)
    (old : list (nat * Undoable TTr)) (p : TPlugin) :
  lookup (p_key p) (Toy2.fields_after ps tr old)
  = if existsb (fun q => p_isInputRules q && Nat.eqb (p_key p) (p_key q)) ps
    then @apply Toy.host p tr (lookup (p_key p) old)
    else None.
Proof.
  induction ps as [|q ps IH]; [reflexivity|].
  unfold Toy2.fields_after. cbn [flat_map existsb].
  fold (Toy2.fields_after ps tr old).
  destruct (p_isInputRules q); cbn [andb orb app]; [|exact IH].
  destruct (Nat.eqb (p_key p) (p_key q)) eqn:K; cbn [orb].
  - apply Nat.eqb_eq in K. rewrite <- K.
    rewrite (apply_key p q tr _ (eq_sym K)).
    destruct (@apply Toy.host p tr (lookup (p_key p) old)) as [u|] eqn:A;
      cbn [app lookup].
    + rewrite Nat.eqb_refl. reflexivity.
    + first [ exact IH
            | rewrite IH; destruct (existsb _ ps); reflexivity ].
  - destruct (@apply Toy.host q tr (lookup (p_key q) old));
      cbn [app lookup]; [rewrite K|]; exact IH.
Qed.

Lemma host_laws : HostLaws Toy2.host.
Proof.
  exact (@Build_HostLaws Toy2.host
           (@textBetween_length Toy.host ToyLaws.laws)
           (@state_tr_doc Toy.host ToyLaws.laws)
           (@tr_step_doc Toy.host ToyLaws.laws)
           (@step_invert_apply Toy.host ToyLaws.laws)
           (@replaceWith_doc Toy.host ToyLaws.laws)).
Qed.

Lemma schema_laws : SchemaLaws Toy2.host.
Proof.
  constructor.
  - reflexivity.
  - intros [|c s] ms N; [contradiction|]. eexists. reflexivity.
Qed.

Lemma dispatch_laws : DispatchLaws Toy2.host.
Proof.
  constructor.
  - intros tr p u. cbn. rewrite Nat.eqb_refl. reflexivity.
  - intros tr p u. reflexivity.
  - intros v tr. reflexivity.
  - intros v tr. reflexivity.
  - intros v tr p I P. cbn in *.
    rewrite lookup_fields_after.
    replace (existsb _ (s_plugins (v_state v))) with true; [reflexivity|].
    symmetry. apply existsb_exists. exists p. split; [exact I|].
    rewrite P, Nat.eqb_refl. reflexivity.
Qed.

End Toy2Laws.

(* ================================================================== *)
(** * The further statements at work on the small editors *)
(* ================================================================== *)

Import Sample2.

Lemma last_occurrence_ab : last_occurrence (str "ab") (str "b") 1.
Proof.
  split; [reflexivity|]. intros j O.
  assert (Ne : str "b" <> []) by discriminate.
  pose proof (occurs_at_bound Ne O) as B.
  change (j + 1 <= 2)%nat in B. lia.
Qed.

Lemma stringHandler_caret_no_group_witness :
  truthy (group {| matched := str "--"; groups := [] |} 1) = false /\
  splice ((str "x" ++ str "-") ++ str "z")
         (stringHandler_edit [8212%N] {| matched := str "--"; groups := [] |}
            (match_start (len (str "x" ++ str "-")) (str "-")
                         {| matched := str "--"; groups := [] |})
            (len (str "x" ++ str "-")))
  = str "x" ++ [8212%N] ++ str "z".
Proof.
  split; [reflexivity|].
  exact (@stringHandler_caret_no_group [8212%N] (str "x") (str "-") (str "-")
           (str "z") {| matched := str "--"; groups := [] |}
           eq_refl eq_refl).
Defined.

Lemma stringHandler_caret_group_witness :
  group m_ab 1 = Some (str "b") /\
  last_occurrence (matched m_ab) (str "b") 1 /\
  splice ((str "x" ++ []) ++ str "z")
         (stringHandler_edit (str "X") m_ab
            (match_start (len (str "x" ++ [])) (str "ab") m_ab)
            (len (str "x" ++ [])))
  = str "xaXz".
Proof.
  split; [reflexivity|]. split; [exact last_occurrence_ab|].
  assert (Ne : str "b" <> []) by discriminate.
  exact (@stringHandler_caret_group (str "X") (str "x") [] (str "ab")
           (str "z") (str "b") m_ab 1 eq_refl eq_refl Ne last_occurrence_ab).
Defined.

Lemma run_string_rule_witness :
  (guarded (w_view w_dash) 1 = false /\
   endsWith "--" [] (textBefore_of st_dash 1 (str "-"))
   = Some {| matched := str "--"; groups := [] |} /\
   run 1 1 (str "-")
       ([] ++ newInputRule (endsWith "--" []) (HString [8212%N]) :: [dash_x])
       plugin0 w_dash
   = (Normal true,
      applied 1 1 (str "-") plugin0 w_dash
        [EvExec 0 (str "--");
         EvHandler 0 {| matched := str "--"; groups := [] |} 0 1]
        (t_replace (state_tr st_dash) 0 1 (t_text [8212%N] []))))
  /\
  (guarded (w_view w_empty) 0 = false /\
   endsWith "ab" [Some []; Some (str "b")]
            (textBefore_of st_empty 0 (str "zab"))
   = Some m_second /\
   run 0 0 (str "zab")
       ([] ++ newInputRule (endsWith "ab" [Some []; Some (str "b")])
                           (HString (str "X")) :: [dash_x])
       plugin0 w_empty
   = (Throw,
      log w_empty [EvExec 0 (str "zab"); EvHandler 0 m_second 1 0])).
Proof.
  split.
  - split; [reflexivity|]. split; [reflexivity|].
    destruct (@run_string_rule host 1 1 (str "-") plugin0 w_dash []
                (endsWith "--" []) [8212%N] [dash_x]
                {| matched := str "--"; groups := [] |}
                eq_refl (Forall_nil _) eq_refl)
      as [insert [start' [E [_ R]]]].
    injection E as <- <-. exact R.
  - split; [reflexivity|]. split; [reflexivity|].
    destruct (@run_string_rule host 0 0 (str "zab") plugin0 w_empty []
                (endsWith "ab" [Some []; Some (str "b")]) (str "X") [dash_x]
                m_second eq_refl (Forall_nil _) eq_refl)
      as [insert [start' [E [_ R]]]].
    injection E as <- <-. exact R.
Defined.

Lemma run_match_start_bound_witness :
  len (matched {| matched := str "--"; groups := [] |})
  <= len (textBefore_of st_dash 1 (str "-")) /\
  1 - Z.max 0 (Z.min (parentOffset (resolve (state_doc st_dash) 1)) 500)
  <= match_start 1 (str "-") {| matched := str "--"; groups := [] |}.
Proof.
  assert (B : len (matched {| matched := str "--"; groups := [] |})
              <= len (textBefore_of st_dash 1 (str "-")))
    by (vm_compute; discriminate).
  split; [exact B|].
  exact (@run_match_start_bound host laws st_dash 1 (str "-")
           {| matched := str "--"; groups := [] |} B).
Defined.

Lemma run_app_witness :
  guarded (w_view w_dash) 1 = false /\
  run 1 1 (str "-") ([dash_veto] ++ [dash_x]) plugin0 w_dash
  = match fst (run 1 1 (str "-") [dash_veto] plugin0 w_dash) with
    | Normal false =>
        run_rules (List.length [dash_veto]) [dash_x] st_dash 1 1 (str "-")
          (textBefore_of st_dash 1 (str "-")) plugin0
          (snd (run 1 1 (str "-") [dash_veto] plugin0 w_dash))
    | _ => run 1 1 (str "-") [dash_veto] plugin0 w_dash
    end.
Proof.
  split; [reflexivity|].
  exact (@run_app host 1 1 (str "-") plugin0 w_dash [dash_veto] [dash_x]
           eq_refl).
Defined.

Lemma compositionend_later_outcome_witness :
  cursor (view_state (w_view w_cursor)) = Some 2 /\
  compositionend_later [emdash] plugin0 w_cursor
  = (Normal tt, snd (run 2 2 [] [emdash] plugin0 w_cursor)) /\
  state_doc (view_state
               (w_view (snd (compositionend_later [emdash] plugin0 w_cursor))))
  = {| t_code := false; t_content := [Ch 8212%N] |}.
Proof.
  split; [reflexivity|]. split; [|reflexivity].
  exact (proj1 (@compositionend_later_outcome host [emdash] plugin0 w_cursor)).
Defined.

Lemma field_after_some_witness :
  field_after plugin0 [tr_rule; tr_idle] None = Some u_after /\
  field_after plugin0 [tr_rule; tr_edit] None = None.
Proof.
  split; [|reflexivity].
  apply (proj2 (@field_after_some host plugin0 [tr_rule; tr_idle] None
                  u_after)).
  left. exists [], tr_rule, [tr_idle].
  split; [reflexivity|]. split; [reflexivity|].
  constructor; [repeat split | constructor].
Defined.

Lemma undoInputRule_no_record_witness :
  has_undoable st_dash = false /\
  undoInputRule st_dash (Some by_view) w_dash = (Normal false, w_dash) /\
  has_undoable st_after = true.
Proof.
  split; [reflexivity|].
  split.
  - exact (proj1 (@undoInputRule_no_record host st_dash (Some by_view)
                    w_dash) eq_refl).
  - reflexivity.
Defined.

Lemma undoInputRule_first_witness :
  state_plugins st_several = [plugin_plain] ++ plugin0 :: [plugin1] /\
  getState plugin0 st_several = Some u_after /\
  getState plugin1 st_several = Some u_other /\
  text u_after <> [] /\
  exists tr,
    undo_transaction st_several u_after = Normal tr /\
    undoInputRule st_several (Some by_view) w_dash
    = (Normal true, snd (by_view tr w_dash)).
Proof.
  assert (N : text u_after <> []) by discriminate.
  split; [reflexivity|]. split; [reflexivity|]. split; [reflexivity|].
  split; [exact N|].
  assert (Dp : Forall (fun q => isInputRules q = false
                                \/ getState q st_several = None)
                      [plugin_plain])
    by (constructor; [left; reflexivity | constructor]).
  destruct (proj1 (@undoInputRule_first host schema_laws st_several
                     [plugin_plain] plugin0 [plugin1] u_after by_view w_dash
                     eq_refl Dp eq_refl eq_refl) N)
    as [tr [E1 E2]].
  exists tr. split; [exact E1 | exact E2].
Defined.

Lemma undoInputRule_restores_witness :
  find_undoable st_after (state_plugins st_after) = Some u_after /\
  history (block "-") (tr_steps (transform u_after))
          (tr_docs (transform u_after)) (state_doc st_after) /\
  text u_after <> [] /\
  fst (undoInputRule st_after (Some by_view) w_after) = Normal true /\
  state_doc (view_state
               (w_view (snd (undoInputRule st_after (Some by_view) w_after))))
  = block "--".
Proof.
  assert (Hh : history (block "-") (tr_steps (transform u_after))
                       (tr_docs (transform u_after)) (state_doc st_after)).
  { split; [reflexivity|]. eexists. split; reflexivity. }
  assert (N : text u_after <> []) by discriminate.
  split; [reflexivity|]. split; [exact Hh|]. split; [exact N|].
  destruct (@undoInputRule_restores host laws schema_laws st_after u_after
              (block "-") by_view w_after eq_refl Hh N)
    as [typed [T [E _]]].
  injection T as <-.
  split.
  - exact (f_equal fst E).
  - exact (f_equal (fun r : Completion bool * World =>
                      state_doc (view_state (w_view (snd r)))) E).
Defined.

Lemma run_then_undo_available_witness :
  fst (@run Toy2.host 1 1 (str "-") [Toy2.emdash] plugin0 Toy2.w_dash)
  = Normal true /\
  @getState Toy2.host plugin0 Toy2.st_after
  = Some (Build_Undoable
            (t_replace (mkTr [] [] (block "-") false []) 0 1
                       (t_text [8212%N] []))
            1 1 (str "-")) /\
  @undoInputRule Toy2.host Toy2.st_after None Toy2.w_after
  = (Normal true, Toy2.w_after) /\
  fst (@undoInputRule Toy2.host Toy2.st_after (Some Toy2.by_view)
                      Toy2.w_after)
  <> Normal false.
Proof.
  split; [reflexivity|]. split; [reflexivity|].
  pose proof (@run_then_undo_available Toy2.host Toy2Laws.dispatch_laws
                1 1 (str "-") [Toy2.emdash] plugin0 Toy2.w_dash
                eq_refl (or_introl eq_refl) eq_refl) as [_ [A B]].
  split; [exact (A Toy2.w_after) | exact (B Toy2.by_view Toy2.w_after)].
Defined.

Lemma edit_then_undo_unavailable_witness :
  fst (@undoInputRule Toy2.host Toy2.st_after None Toy2.w_after)
  = Normal true /\
  @docChanged Toy2.host Toy2.tr_edit = true /\
  @undoInputRule Toy2.host
     (@view_state Toy2.host
        (@view_dispatch Toy2.host (@w_view Toy2.host Toy2.w_after)
                        Toy2.tr_edit))
     (Some Toy2.by_view) Toy2.w_after
  = (Normal false, Toy2.w_after).
Proof.
  split; [reflexivity|]. split; [reflexivity|].
  apply (@edit_then_undo_unavailable Toy2.host Toy2Laws.dispatch_laws
           (@w_view Toy2.host Toy2.w_after) Toy2.tr_edit
           (Some Toy2.by_view) Toy2.w_after).
  - intros p _ _. reflexivity.
  - right. reflexivity.
Defined.

Lemma run_no_text_then_undo_raises_witness :
  fst (@run Toy2.host 2 2 [] [Toy2.emdash] plugin0 Toy2.w_cursor)
  = Normal true /\
  @view_state Toy2.host
    (@w_view Toy2.host
       (snd (@run Toy2.host 2 2 [] [Toy2.emdash] plugin0 Toy2.w_cursor)))
  = Toy2.st_composed /\
  @undoInputRule Toy2.host Toy2.st_composed None Toy2.w_composed
  = (Normal true, Toy2.w_composed) /\
  @undoInputRule Toy2.host Toy2.st_composed (Some Toy2.by_view)
                 Toy2.w_composed
  = (Throw, Toy2.w_composed).
Proof.
  split; [reflexivity|]. split; [reflexivity|].
  apply (@run_no_text_then_undo_raises Toy2.host Toy2Laws.dispatch_laws
           2 2 [] [Toy2.emdash] plugin0 Toy2.w_cursor Toy2Laws.schema_laws
           Toy2.by_view Toy2.w_composed eq_refl eq_refl).
  - intros p [<- | []] _. reflexivity.
  - left. reflexivity.
  - reflexivity.
Defined.

Lemma run_then_undo_restores_witness :
  fst (@run Toy2.host 1 1 (str "-") [Toy2.emdash] plugin0 Toy2.w_dash)
  = Normal true /\
  str "-" <> [] /\
  @state_doc Toy2.host Toy2.st_after
  = {| t_code := false; t_content := [Ch 8212%N] |} /\
  @state_doc Toy2.host
     (@view_state Toy2.host
        (@w_view Toy2.host
           (snd (@undoInputRule Toy2.host Toy2.st_after
                   (Some Toy2.by_view) Toy2.w_after))))
  = block "--".
Proof.
  assert (N : str "-" <> []) by discriminate.
  split; [reflexivity|]. split; [exact N|]. split; [reflexivity|].
  destruct (@run_then_undo_restores Toy2.host Toy2Laws.dispatch_laws
              1 1 (str "-") [Toy2.emdash] plugin0 Toy2.w_dash
              Toy2Laws.schema_laws Toy2Laws.host_laws
              Toy2.by_view Toy2.w_after N eq_refl)
    as [undo [typed [T [E Dd]]]].
  - intros p [<- | []] _. reflexivity.
  - left. reflexivity.
  - reflexivity.
  - intros rule tr [<- | []] A. injection A as <-.
    split; [reflexivity|]. eexists. split; reflexivity.
  - injection T as <-.
    exact (eq_trans
             (f_equal (fun r : Completion bool * @World Toy2.host =>
                         @state_doc Toy2.host
                           (@view_state Toy2.host
                              (@w_view Toy2.host (snd r)))) E)
             Dd).
Defined.
